(** * Verification of the my_jira_cli persistence layer and UI helpers

    Shallow embedding of [src/src/db.rs], [src/src/models.rs],
    [src/src/ui/prompts.rs] and [src/src/ui/pages_helpers.rs].

    Conventions:
    - [u32] values are [N] bounded by [u32_max]; Rust's [+] on [u32]
      panics on overflow (the default debug profile), written out in
      [u32_add].
    - [HashMap<u32, _>] is a [gmap N _]; [Vec<u32>] a [list N].
    - [anyhow::Result] computations over a storage backend run in a small
      state/error monad [M B A]: the backend state [B] is threaded through,
      an error is a value ([Err]), and a panic ([Panic]) aborts the process. *)

From stdpp Require Import base gmap list strings.
From Stdlib Require Import Ascii NArith ZArith Lia ZifyN Sorting.Sorted.
Local Set Warnings "-register-all".

Open Scope N_scope.
Open Scope list_scope.

(* ------------------------------------------------------------------ *)
(** ** Domain model ([models.rs]) *)

Inductive Status := Open | InProgress | Resolved | Closed.

#[global] Instance Status_eq_dec : EqDecision Status.
Proof. solve_decision. Defined.

(** [Epic]: the [stories] field is used by [db.rs] ([.stories.push],
    [.stories.iter()]) but is absent from the struct in [models.rs];
    its type [Vec<u32>] follows [db.rs] and the spec's data model. *)
Record Epic := mkEpic {
  epic_name : string;
  epic_description : string;
  epic_status : Status;
  epic_stories : list N
}.

Record Story := mkStory {
  story_name : string;
  story_description : string;
  story_status : Status
}.

(** Modelled from the spec: [DbState] is used by [db.rs] but its
    declaration is missing from [models.rs]; fields as in spec section 3
    and as used in [db.rs] ([last_item_id: u32] and two [HashMap]s). *)
Record DbState := mkDbState {
  last_item_id : N;
  epics : gmap N Epic;
  stories : gmap N Story
}.

(** [Epic::new]: status [Open]; the story list of a new epic is empty
    (the spec's "Created with status = Open and an empty story list"). *)
Definition Epic_new (name description : string) : Epic :=
  mkEpic name description Open [].

(** [Story::new] *)
Definition Story_new (name description : string) : Story :=
  mkStory name description Open.

Definition set_last_item_id (s : DbState) (n : N) : DbState :=
  mkDbState n (epics s) (stories s).
Definition set_epics (s : DbState) (m : gmap N Epic) : DbState :=
  mkDbState (last_item_id s) m (stories s).
Definition set_stories (s : DbState) (m : gmap N Story) : DbState :=
  mkDbState (last_item_id s) (epics s) m.

Definition set_epic_stories (e : Epic) (l : list N) : Epic :=
  mkEpic (epic_name e) (epic_description e) (epic_status e) l.
Definition set_epic_status (e : Epic) (st : Status) : Epic :=
  mkEpic (epic_name e) (epic_description e) st (epic_stories e).
Definition set_story_status (s : Story) (st : Status) : Story :=
  mkStory (story_name s) (story_description s) st.

(** [MockDB::new]'s initial state: [last_item_id: 0], empty maps. *)
Definition empty_state : DbState := mkDbState 0 ∅ ∅.

(* ------------------------------------------------------------------ *)
(** ** Results, panics and the backend monad *)

Definition u32_max : N := 4294967295.

Inductive Error :=
| Anyhow (msg : string)   (* [anyhow!(..)] *)
| IoError                 (* [std::io::Error] through [?] *)
| FormatError.            (* [serde_json::Error] through [?] *)

Inductive Outcome (A : Type) :=
| Ok (a : A)
| Err (e : Error)
| Panic (msg : string).
Arguments Ok {A} a.
Arguments Err {A} e.
Arguments Panic {A} msg.

(** A computation over backend state [B]: the final backend state is
    returned also on error, so effects performed before the error stay. *)
Definition M (B A : Type) : Type := B -> Outcome A * B.

Definition ret {B A} (a : A) : M B A := fun b => (Ok a, b).
Definition fail {B A} (e : Error) : M B A := fun b => (Err e, b).
Definition panic {B A} (msg : string) : M B A := fun b => (Panic msg, b).
Definition bind {B A C} (m : M B A) (k : A -> M B C) : M B C :=
  fun b => match m b with
           | (Ok a, b') => k a b'
           | (Err e, b') => (Err e, b')
           | (Panic s, b') => (Panic s, b')
           end.

Notation "x <-- m ;; k" := (bind m (fun x => k))
  (at level 100, m at next level, right associativity).
Notation "m ;;; k" := (bind m (fun _ => k))
  (at level 100, right associativity).

(** [Option::ok_or_else(..)?] *)
Definition ok_or {B A} (o : option A) (e : Error) : M B A :=
  match o with Some a => ret a | None => fail e end.

(** [a + b] on [u32] (overflow check of the debug profile). *)
Definition u32_add {B} (a b : N) : M B N :=
  if a + b <=? u32_max then ret (a + b)
  else panic "attempt to add with overflow".

(** [trait Database { fn read(&self) -> Result<DbState>;
    fn write(&self, state: &DbState) -> Result<()>; }] *)
Class Database (B : Type) := {
  db_read : M B DbState;
  db_write : DbState -> M B unit
}.

(** [Iterator::position]: index of the first element satisfying [p]. *)
Fixpoint position {A} (p : A -> bool) (l : list A) : option nat :=
  match l with
  | [] => None
  | x :: l' => if p x then Some O else S <$> position p l'
  end.

(** [Vec::remove(idx)]: removes the element at [idx]; out of range it
    panics. *)
Fixpoint vec_remove {A} (idx : nat) (l : list A) : option (list A) :=
  match l, idx with
  | [], _ => None
  | _ :: l', O => Some l'
  | x :: l', S i => cons x <$> vec_remove i l'
  end.

Definition msg_epic_not_found : string := "could not find epic in database!".
Definition msg_story_not_linked : string :=
  "story id not found in epic stories vector".

(* ------------------------------------------------------------------ *)
(** ** The repository ([impl JiraDatabase], [db.rs]) *)

Section JiraDatabase.
Context {B : Type} `{Database B}.

(** [JiraDatabase::read]: [self.database.read().expect("Read JIRA error")]. *)
Definition jira_read : M B DbState :=
  fun b => match db_read b with
           | (Ok s, b') => (Ok s, b')
           | (Err _, b') => (Panic "Read JIRA error", b')
           | (Panic m, b') => (Panic m, b')
           end.

(** [JiraDatabase::create_epic] *)
Definition create_epic (epic : Epic) : M B N :=
  state <-- db_read ;;
  id <-- u32_add (last_item_id state) 1 ;;
  let state := set_last_item_id state id in
  let state := set_epics state (<[id := epic]> (epics state)) in
  db_write state ;;;
  ret id.

(** [JiraDatabase::delete_epic]: the loop [for id in stories
    { db.stories.remove(id); }] is a left fold of [delete]. *)
Definition delete_epic (epic_id : N) : M B unit :=
  db <-- db_read ;;
  e <-- ok_or (epics db !! epic_id) (Anyhow msg_epic_not_found) ;;
  let db := set_stories db
              (fold_left (fun m id => delete id m) (epic_stories e) (stories db)) in
  let db := set_epics db (delete epic_id (epics db)) in
  db_write db ;;;
  ret tt.

(** [JiraDatabase::update_epic_status] *)
Definition update_epic_status (epic_id : N) (status : Status) : M B unit :=
  db <-- db_read ;;
  e <-- ok_or (epics db !! epic_id) (Anyhow msg_epic_not_found) ;;
  let db := set_epics db (<[epic_id := set_epic_status e status]> (epics db)) in
  db_write db ;;;
  ret tt.

(** [JiraDatabase::create_story]: the id is allocated and the story
    inserted into the in-memory copy before the epic is looked up. *)
Definition create_story (story : Story) (epic_id : N) : M B N :=
  state <-- db_read ;;
  id <-- u32_add (last_item_id state) 1 ;;
  let state := set_last_item_id state id in
  let state := set_stories state (<[id := story]> (stories state)) in
  e <-- ok_or (epics state !! epic_id) (Anyhow msg_epic_not_found) ;;
  let state := set_epics state
                 (<[epic_id := set_epic_stories e (epic_stories e ++ [id])]>
                    (epics state)) in
  db_write state ;;;
  ret id.

(** [JiraDatabase::delete_story] *)
Definition delete_story (epic_id story_id : N) : M B unit :=
  state <-- db_read ;;
  epic <-- ok_or (epics state !! epic_id) (Anyhow msg_epic_not_found) ;;
  story_idx <-- ok_or (position (fun id => N.eqb id story_id) (epic_stories epic))
                      (Anyhow msg_story_not_linked) ;;
  l <-- match vec_remove story_idx (epic_stories epic) with
        | Some l => ret l
        | None => panic "removal index out of bounds"
        end ;;
  let state := set_epics state (<[epic_id := set_epic_stories epic l]> (epics state)) in
  let state := set_stories state (delete story_id (stories state)) in
  db_write state ;;;
  ret tt.

(** [JiraDatabase::update_story_status] *)
Definition update_story_status (story_id : N) (status : Status) : M B unit :=
  db <-- db_read ;;
  s <-- ok_or (stories db !! story_id) (Anyhow msg_epic_not_found) ;;
  let db := set_stories db (<[story_id := set_story_status s status]> (stories db)) in
  db_write db ;;;
  ret tt.

End JiraDatabase.

(* ------------------------------------------------------------------ *)
(** ** The in-memory backend ([test_utils::MockDB]) *)

(** [MockDB]: the backend state is [last_written_state]; [read] returns
    a clone of it, [write] replaces it by a clone of its argument (a Rocq
    value is immutable, so a clone is the value itself). *)
#[global] Instance MockDB : Database DbState := {
  db_read := fun st => (Ok st, st);
  db_write := fun s _ => (Ok tt, s)
}.

Definition MockDB_new : DbState := empty_state.


(* ------------------------------------------------------------------ *)
(** ** Sequences of repository operations *)

Inductive Op :=
| OpCreateEpic (epic : Epic)
| OpCreateStory (story : Story) (epic_id : N)
| OpDeleteEpic (epic_id : N)
| OpDeleteStory (epic_id story_id : N)
| OpUpdateEpicStatus (epic_id : N) (status : Status)
| OpUpdateStoryStatus (story_id : N) (status : Status).

(** One repository call; a create reports the id it returned. *)
Definition exec_op {B} `{Database B} (op : Op) : M B (option N) :=
  match op with
  | OpCreateEpic e => id <-- create_epic e ;; ret (Some id)
  | OpCreateStory s eid => id <-- create_story s eid ;; ret (Some id)
  | OpDeleteEpic eid => delete_epic eid ;;; ret None
  | OpDeleteStory eid sid => delete_story eid sid ;;; ret None
  | OpUpdateEpicStatus eid st => update_epic_status eid st ;;; ret None
  | OpUpdateStoryStatus sid st => update_story_status sid st ;;; ret None
  end.

(** Runs the calls one after the other on the in-memory backend and
    appends the ids allocated by successful creates to [ids], in order. A failed
    call leaves the persisted state as it is and the run goes on (after a
    panic the program is restarted on the same persisted state). *)
Definition allocated (res : Outcome (option N)) : list N :=
  match res with Ok (Some id) => [id] | _ => [] end.

Fixpoint run (ops : list Op) (st : DbState) (ids : list N) : DbState * list N :=
  match ops with
  | [] => (st, ids)
  | op :: ops' =>
      let '(res, st1) := exec_op op st in
      run ops' st1 (ids ++ allocated res)
  end.

(** The largest element of a list of ids, [0] for none. *)
Definition max_list (l : list N) : N := fold_right N.max 0 l.

(** The epics a caller can build through the create-epic prompt
    ([Epic::new]) have an empty [stories] list. *)
Definition creates_fresh_epics (ops : list Op) : Prop :=
  Forall (fun op => match op with
                    | OpCreateEpic e => epic_stories e = []
                    | _ => True
                    end) ops.

(** The scenario of spec section 8: create epic E1, create story S1
    under it, close S1, then delete E1. *)
Definition scenario_ops : list Op :=
  [OpCreateEpic (Epic_new "E1" ""); OpCreateStory (Story_new "S1" "") 1;
   OpUpdateStoryStatus 2 Closed; OpDeleteEpic 1].

(** The invariant of spec section 3, with the history [ids] of allocated
    ids: the counter is the largest id allocated so far, allocated ids
    increase strictly, every story key is at most the counter, every id
    listed by an epic is a story key, and a story id is listed at most once
    in at most one epic. *)
Record repo_inv (st : DbState) (ids : list N) : Prop := {
  inv_last : last_item_id st = max_list ids;
  inv_sorted : StronglySorted N.lt ids;
  inv_story_keys : forall k s, stories st !! k = Some s -> k <= last_item_id st;
  inv_linked : forall k e i, epics st !! k = Some e -> i ∈ epic_stories e ->
                 is_Some (stories st !! i);
  inv_nodup : forall k e, epics st !! k = Some e -> NoDup (epic_stories e);
  inv_owner : forall k1 k2 e1 e2 i, epics st !! k1 = Some e1 -> epics st !! k2 = Some e2 ->
                i ∈ epic_stories e1 -> i ∈ epic_stories e2 -> k1 = k2
}.

(** Sample states used by the witnesses below. *)
Definition epic_e2 : Epic := mkEpic "e" "" Open [2].
Definition st_one_epic : DbState := mkDbState 1 {[1 := Epic_new "e" ""]} ∅.
Definition st_epic_story : DbState :=
  mkDbState 2 {[1 := epic_e2]} {[2 := Story_new "s" ""]}.

(** The message of Rust's overflow panic. *)
Definition overflow_msg : string := "attempt to add with overflow".

(* ------------------------------------------------------------------ *)
(** ** JSON text: [serde_json::to_vec] and [serde_json::from_str] *)

(** JSON values, with integer numbers only (the only numbers in a
    [DbState]); strings are byte strings. *)
Inductive json :=
| JNull
| JBool (b : bool)
| JNum (z : Z)
| JStr (s : string)
| JArr (l : list json)
| JObj (ms : list (string * json)).

Definition dq : ascii := "034"%char.
Definition bs : ascii := "092"%char.
Definition chr (n : N) : ascii := Ascii.ascii_of_N n.
Definition code (c : ascii) : N := Ascii.N_of_ascii c.
Definition str1 (c : ascii) : string := String c EmptyString.

(** Lower-case hexadecimal digit ([serde_json]'s [HEX_DIGITS]). *)
Definition hex_digit (n : N) : ascii :=
  if n <? 10 then chr (48 + n) else chr (87 + n).

(** [serde_json]'s escaping of one byte of a string. *)
Definition escape_char (c : ascii) : string :=
  let n := code c in
  if n =? 34 then str1 bs +:+ str1 dq
  else if n =? 92 then str1 bs +:+ str1 bs
  else if n =? 8 then str1 bs +:+ "b"
  else if n =? 12 then str1 bs +:+ "f"
  else if n =? 10 then str1 bs +:+ "n"
  else if n =? 13 then str1 bs +:+ "r"
  else if n =? 9 then str1 bs +:+ "t"
  else if n <? 32 then str1 bs +:+ "u00" +:+ str1 (hex_digit (n / 16)) +:+ str1 (hex_digit (n mod 16))
  else str1 c.

Fixpoint escape (s : string) : string :=
  match s with
  | EmptyString => EmptyString
  | String c r => escape_char c +:+ escape r
  end.

Definition quote (s : string) : string := str1 dq +:+ escape s +:+ str1 dq.

(** Decimal digits of [n], most significant first ([fuel] bounds the
    number of digits). *)
Fixpoint dec (fuel : nat) (n : N) : string :=
  match fuel with
  | O => EmptyString
  | S f => if n <? 10 then str1 (chr (48 + n))
           else dec f (n / 10) +:+ str1 (chr (48 + n mod 10))
  end.

(** Integers are printed by [serde_json] as [u64]/[i64]: 20 digits at most. *)
Definition print_N (n : N) : string := dec 20 n.

Definition print_Z (z : Z) : string :=
  if (z <? 0)%Z then "-" +:+ print_N (Z.to_N (- z)) else print_N (Z.to_N z).

Fixpoint sep_by (sep : string) (l : list string) : string :=
  match l with
  | [] => EmptyString
  | [x] => x
  | x :: l' => x +:+ sep +:+ sep_by sep l'
  end.

(** [serde_json::to_vec]: compact output, no whitespace. *)
Fixpoint print_json (v : json) : string :=
  match v with
  | JNull => "null"
  | JBool true => "true"
  | JBool false => "false"
  | JNum z => print_Z z
  | JStr s => quote s
  | JArr l => "[" +:+ sep_by "," (map print_json l) +:+ "]"
  | JObj ms => "{" +:+ sep_by "," (map (fun '(k, v) => quote k +:+ ":" +:+ print_json v) ms)
               +:+ "}"
  end.


(** ** A model of [serde_json::from_str] on the JSON it needs to read *)

Definition is_ws (c : ascii) : bool :=
  let n := code c in (n =? 32) || (n =? 9) || (n =? 10) || (n =? 13).

Fixpoint skip_ws (s : string) : string :=
  match s with
  | String c r => if is_ws c then skip_ws r else s
  | EmptyString => s
  end.

Definition is_digit (c : ascii) : bool := (48 <=? code c) && (code c <=? 57).

Definition hex_val (c : ascii) : option N :=
  let n := code c in
  if (48 <=? n) && (n <=? 57) then Some (n - 48)
  else if (97 <=? n) && (n <=? 102) then Some (n - 87)
  else if (65 <=? n) && (n <=? 70) then Some (n - 55)
  else None.

(** UTF-8 encoding of a code point outside the surrogate range. *)
Definition utf8_encode (cp : N) : string :=
  if cp <? 128 then str1 (chr cp)
  else if cp <? 2048 then
    str1 (chr (192 + cp / 64)) +:+ str1 (chr (128 + cp mod 64))
  else if cp <? 65536 then
    str1 (chr (224 + cp / 4096)) +:+ str1 (chr (128 + (cp / 64) mod 64))
      +:+ str1 (chr (128 + cp mod 64))
  else
    str1 (chr (240 + cp / 262144)) +:+ str1 (chr (128 + (cp / 4096) mod 64))
      +:+ str1 (chr (128 + (cp / 64) mod 64)) +:+ str1 (chr (128 + cp mod 64)).

(** The escape sequences of JSON after the backslash, but [\u]. *)
Definition unescape_simple (c : ascii) : option ascii :=
  let n := code c in
  if n =? 34 then Some dq
  else if n =? 92 then Some bs
  else if n =? 47 then Some "/"%char
  else if n =? 98 then Some (chr 8)
  else if n =? 102 then Some (chr 12)
  else if n =? 110 then Some (chr 10)
  else if n =? 114 then Some (chr 13)
  else if n =? 116 then Some (chr 9)
  else None.

(** The body of a string literal, after its opening quote: the decoded
    bytes and the input after the closing quote. A raw control character
    is an error. A [\u] escape of a leading UTF-16 surrogate must be
    followed by a [\u] escape of a trailing one, the pair standing for one
    code point; a lone surrogate is an error ([serde_json]'s
    [parse_unicode_escape] when parsing a [str]). *)
Fixpoint parse_str_body (s : string) : option (string * string) :=
  match s with
  | EmptyString => None
  | String c r =>
      if code c =? 34 then Some (EmptyString, r)
      else if code c =? 92 then
        match r with
        | EmptyString => None
        | String u r' =>
            if code u =? 117 then
              match r' with
              | String h1 (String h2 (String h3 (String h4 r''))) =>
                  match hex_val h1, hex_val h2, hex_val h3, hex_val h4 with
                  | Some a, Some b, Some c', Some d =>
                      let cp := ((a * 16 + b) * 16 + c') * 16 + d in
                      if (55296 <=? cp) && (cp <=? 57343) then
                        if 56320 <=? cp then None
                        else match r'' with
                             | String b1 (String u1 (String g1 (String g2 (String g3 (String g4 r3))))) =>
                                 if (code b1 =? 92) && (code u1 =? 117) then
                                   match hex_val g1, hex_val g2, hex_val g3, hex_val g4 with
                                   | Some a2, Some b2, Some c2, Some d2 =>
                                       let lo := ((a2 * 16 + b2) * 16 + c2) * 16 + d2 in
                                       if (56320 <=? lo) && (lo <=? 57343) then
                                         match parse_str_body r3 with
                                         | Some (body, rest) =>
                                             Some (utf8_encode (65536 + (cp - 55296) * 1024 + (lo - 56320))
                                                     +:+ body, rest)
                                         | None => None
                                         end
                                       else None
                                   | _, _, _, _ => None
                                   end
                                 else None
                             | _ => None
                             end
                      else match parse_str_body r'' with
                           | Some (body, rest) => Some (utf8_encode cp +:+ body, rest)
                           | None => None
                           end
                  | _, _, _, _ => None
                  end
              | _ => None
              end
            else match unescape_simple u with
                 | Some c' =>
                     match parse_str_body r' with
                     | Some (body, rest) => Some (String c' body, rest)
                     | None => None
                     end
                 | None => None
                 end
        end
      else if code c <? 32 then None
      else match parse_str_body r with
           | Some (body, rest) => Some (String c body, rest)
           | None => None
           end
  end.

Fixpoint read_digits (s : string) (acc : N) : N * string :=
  match s with
  | String c r => if is_digit c then read_digits r (acc * 10 + (code c - 48)) else (acc, s)
  | EmptyString => (acc, s)
  end.

Definition starts_with (p : ascii -> bool) (s : string) : bool :=
  match s with String c _ => p c | EmptyString => false end.

(** An unsigned integer: [0] alone, or a non-zero digit and more digits
    (a leading zero before a digit is an error). *)
Definition parse_uint (s : string) : option (N * string) :=
  match s with
  | String c r =>
      if code c =? 48 then (if starts_with is_digit r then None else Some (0, r))
      else if is_digit c then Some (read_digits r (code c - 48))
      else None
  | EmptyString => None
  end.

Definition is_frac_or_exp (c : ascii) : bool :=
  (code c =? 46) || (code c =? 101) || (code c =? 69).

(** An integer; numbers with a fraction or an exponent are not
    modelled and refused. *)
Definition parse_number (s : string) : option (Z * string) :=
  let r := match s with
           | String c r' =>
               if code c =? 45
               then match parse_uint r' with
                    | Some (n, r'') => Some (Z.opp (Z.of_N n), r'')
                    | None => None
                    end
               else match parse_uint s with
                    | Some (n, r'') => Some (Z.of_N n, r'')
                    | None => None
                    end
           | EmptyString => None
           end in
  match r with
  | Some (z, rest) => if starts_with is_frac_or_exp rest then None else Some (z, rest)
  | None => None
  end.

Fixpoint strip_prefix (w s : string) : option string :=
  match w, s with
  | EmptyString, _ => Some s
  | String a w', String b s' => if Ascii.eqb a b then strip_prefix w' s' else None
  | _, _ => None
  end.

(** A JSON value, with [fuel] bounding the recursion. *)
Fixpoint parse_value (fuel : nat) (s : string) {struct fuel} : option (json * string) :=
  match fuel with
  | O => None
  | S f =>
    match skip_ws s with
    | EmptyString => None
    | String c r =>
      if code c =? 110 then
        match strip_prefix "ull" r with Some r' => Some (JNull, r') | None => None end
      else if code c =? 116 then
        match strip_prefix "rue" r with Some r' => Some (JBool true, r') | None => None end
      else if code c =? 102 then
        match strip_prefix "alse" r with Some r' => Some (JBool false, r') | None => None end
      else if code c =? 34 then
        match parse_str_body r with Some (str, r') => Some (JStr str, r') | None => None end
      else if code c =? 91 then
        match skip_ws r with
        | String d r' =>
            if code d =? 93 then Some (JArr [], r')
            else match parse_elems f r with Some (l, r'') => Some (JArr l, r'') | None => None end
        | EmptyString => None
        end
      else if code c =? 123 then
        match skip_ws r with
        | String d r' =>
            if code d =? 125 then Some (JObj [], r')
            else match parse_members f r with Some (l, r'') => Some (JObj l, r'') | None => None end
        | EmptyString => None
        end
      else match parse_number (String c r) with
           | Some (z, r') => Some (JNum z, r')
           | None => None
           end
    end
  end
with parse_elems (fuel : nat) (s : string) {struct fuel} : option (list json * string) :=
  match fuel with
  | O => None
  | S f =>
    match parse_value f s with
    | None => None
    | Some (v, r) =>
      match skip_ws r with
      | String d r' =>
          if code d =? 44 then
            match parse_elems f r' with Some (vs, r'') => Some (v :: vs, r'') | None => None end
          else if code d =? 93 then Some ([v], r')
          else None
      | EmptyString => None
      end
    end
  end
with parse_members (fuel : nat) (s : string) {struct fuel}
    : option (list (string * json) * string) :=
  match fuel with
  | O => None
  | S f =>
    match skip_ws s with
    | String q r =>
      if code q =? 34 then
        match parse_str_body r with
        | None => None
        | Some (k, r1) =>
          match skip_ws r1 with
          | String colon r2 =>
            if code colon =? 58 then
              match parse_value f r2 with
              | None => None
              | Some (v, r3) =>
                match skip_ws r3 with
                | String d r4 =>
                    if code d =? 44 then
                      match parse_members f r4 with
                      | Some (ms, r5) => Some ((k, v) :: ms, r5)
                      | None => None
                      end
                    else if code d =? 125 then Some ([(k, v)], r4)
                    else None
                | EmptyString => None
                end
              end
            else None
          | EmptyString => None
          end
        end
      else None
    | EmptyString => None
    end
  end.

(** [serde_json::from_str]: one value, then only whitespace. *)
Definition json_from_str (s : string) : option json :=
  match parse_value (S (String.length s)) s with
  | Some (v, r) => match skip_ws r with EmptyString => Some v | _ => None end
  | None => None
  end.

Fixpoint jsize (v : json) : nat :=
  match v with
  | JArr l => S (list_sum (map (fun x => S (jsize x)) l))
  | JObj ms => S (list_sum (map (fun kv => S (jsize kv.2)) ms))
  | _ => 1
  end.

(** Numbers within [serde_json]'s 64-bit range (20 digits). *)
Fixpoint json_okb (v : json) : bool :=
  match v with
  | JNum z => (Z.abs z <? 10 ^ 20)%Z
  | JArr l => forallb json_okb l
  | JObj ms => forallb (fun kv => json_okb kv.2) ms
  | _ => true
  end.

(** The bytes of a string. *)
Definition bytes_of (s : string) : list N := map code (String.list_ascii_of_string s).

(** A continuation byte of UTF-8. *)
Definition utf8_cont (b : N) : bool := (128 <=? b) && (b <=? 191).

(** [str::from_utf8]'s validation, which [fs::read_to_string] applies:
    one to four bytes per code point, no overlong encoding, no surrogate,
    nothing above U+10FFFF. *)
Fixpoint utf8_valid (l : list N) : bool :=
  match l with
  | [] => true
  | b :: r =>
      if b <? 128 then utf8_valid r
      else if (194 <=? b) && (b <=? 223) then
        match r with
        | c1 :: r' => utf8_cont c1 && utf8_valid r'
        | [] => false
        end
      else if (224 <=? b) && (b <=? 239) then
        match r with
        | c1 :: c2 :: r' =>
            (if b =? 224 then (160 <=? c1) && (c1 <=? 191)
             else if b =? 237 then (128 <=? c1) && (c1 <=? 159)
             else utf8_cont c1) && utf8_cont c2 && utf8_valid r'
        | _ => false
        end
      else if (240 <=? b) && (b <=? 244) then
        match r with
        | c1 :: c2 :: c3 :: r' =>
            (if b =? 240 then (144 <=? c1) && (c1 <=? 191)
             else if b =? 244 then (128 <=? c1) && (c1 <=? 143)
             else utf8_cont c1) && utf8_cont c2 && utf8_cont c3 && utf8_valid r'
        | _ => false
        end
      else false
  end.

(** Strings (and member names) that are UTF-8, as Rust's [String]s are. *)
Fixpoint json_utf8b (v : json) : bool :=
  match v with
  | JStr s => utf8_valid (bytes_of s)
  | JArr l => forallb json_utf8b l
  | JObj ms => forallb (fun kv => utf8_valid (bytes_of kv.1) && json_utf8b kv.2) ms
  | _ => true
  end.

(** A value is followed by a delimiter, not by more of a number. *)
Definition delim_ok (rest : string) : bool :=
  negb (starts_with (fun c => is_digit c || is_frac_or_exp c) rest).

(** One member of an object, as [print_json] writes it. *)
Definition print_member (kv : string * json) : string :=
  let '(k, v) := kv in quote k +:+ ":" +:+ print_json v.

(** Induction on [json] through its nested lists. *)
Section JsonInd.
Variable P : json -> Prop.
Hypothesis HNull : P JNull.
Hypothesis HBool : forall b, P (JBool b).
Hypothesis HNum : forall z, P (JNum z).
Hypothesis HStr : forall s, P (JStr s).
Hypothesis HArr : forall l, Forall P l -> P (JArr l).
Hypothesis HObj : forall ms, Forall (fun kv => P kv.2) ms -> P (JObj ms).

Fixpoint json_ind' (v : json) : P v :=
  match v with
  | JNull => HNull
  | JBool b => HBool b
  | JNum z => HNum z
  | JStr s => HStr s
  | JArr l => HArr l ((fix go (l : list json) : Forall P l :=
      match l with [] => @List.Forall_nil _ P | x :: l' => @List.Forall_cons _ P x l' (json_ind' x) (go l') end) l)
  | JObj ms => HObj ms ((fix go (ms : list (string * json)) : Forall (fun kv => P kv.2) ms :=
      match ms with
      | [] => @List.Forall_nil _ _
      | kv :: ms' => @List.Forall_cons _ (fun kv => P kv.2) kv ms' (json_ind' kv.2) (go ms')
      end) ms)
  end.
End JsonInd.

(* ------------------------------------------------------------------ *)
(** ** [DbState] as JSON: the [Serialize]/[Deserialize] derives *)

(** [models.rs] declares no derives, yet [db.rs] serializes [DbState]
    with [serde_json]; the encoding below is that of [serde]'s derives:
    a struct is an object with one member per field, in declaration
    order; a unit enum variant is its name as a string; a [Vec] is an
    array; a [HashMap<u32, _>] is an object whose keys are the decimal
    numbers as strings, in the map's iteration order. *)

Definition status_name (s : Status) : string :=
  match s with
  | Open => "Open"
  | InProgress => "InProgress"
  | Resolved => "Resolved"
  | Closed => "Closed"
  end.

Definition status_to_json (s : Status) : json := JStr (status_name s).

Definition u32_to_json (n : N) : json := JNum (Z.of_N n).

Definition epic_to_json (e : Epic) : json :=
  JObj [("name", JStr (epic_name e)); ("description", JStr (epic_description e));
        ("status", status_to_json (epic_status e));
        ("stories", JArr (map u32_to_json (epic_stories e)))].

Definition story_to_json (s : Story) : json :=
  JObj [("name", JStr (story_name s)); ("description", JStr (story_description s));
        ("status", status_to_json (story_status s))].

Definition map_to_json {A} (enc : A -> json) (m : gmap N A) : json :=
  JObj (map (fun '(k, a) => (print_N k, enc a)) (map_to_list m)).

Definition db_to_json (st : DbState) : json :=
  JObj [("last_item_id", u32_to_json (last_item_id st));
        ("epics", map_to_json epic_to_json (epics st));
        ("stories", map_to_json story_to_json (stories st))].

(** [u32::deserialize]: an integer in range (fractions and exponents are
    already refused by [parse_number]). *)
Definition u32_of_json (j : json) : option N :=
  match j with
  | JNum z => if (0 <=? z)%Z && (z <=? Z.of_N u32_max)%Z then Some (Z.to_N z) else None
  | _ => None
  end.

Definition string_of_json (j : json) : option string :=
  match j with JStr s => Some s | _ => None end.

Definition status_of_name (s : string) : option Status :=
  if String.eqb s "Open" then Some Open
  else if String.eqb s "InProgress" then Some InProgress
  else if String.eqb s "Resolved" then Some Resolved
  else if String.eqb s "Closed" then Some Closed
  else None.

(** A unit variant is read from its name, or from [{"name": null}]. *)
Definition status_of_json (j : json) : option Status :=
  match j with
  | JStr s => status_of_name s
  | JObj [(s, JNull)] => status_of_name s
  | _ => None
  end.

Definition vec_of_json {A} (f : json -> option A) (j : json) : option (list A) :=
  match j with JArr l => mapM f l | _ => None end.

(** The value of field [name] of a struct read from a JSON object: a
    missing field and a duplicate field are errors, unknown members are
    ignored (no [deny_unknown_fields]). *)
Definition field (ms : list (string * json)) (name : string) : option json :=
  match List.filter (fun kv => String.eqb kv.1 name) ms with
  | [(_, v)] => Some v
  | _ => None
  end.

(** The derived [visit_map] (an object) and [visit_seq] (an array of
    exactly as many elements as the struct has fields). *)
Definition struct_of_json (names : list string) (j : json) : option (list json) :=
  match j with
  | JObj ms => mapM (field ms) names
  | JArr l => if Nat.eqb (length l) (length names) then Some l else None
  | _ => None
  end.

Definition epic_of_json (j : json) : option Epic :=
  match struct_of_json ["name"; "description"; "status"; "stories"] j with
  | Some [n; d; s; l] =>
      n' ← string_of_json n; d' ← string_of_json d; s' ← status_of_json s;
      l' ← vec_of_json u32_of_json l; Some (mkEpic n' d' s' l')
  | _ => None
  end.

Definition story_of_json (j : json) : option Story :=
  match struct_of_json ["name"; "description"; "status"] j with
  | Some [n; d; s] =>
      n' ← string_of_json n; d' ← string_of_json d; s' ← status_of_json s;
      Some (mkStory n' d' s')
  | _ => None
  end.

(** A [u32] map key: the key string read as a JSON number. *)
Definition key_of_string (k : string) : option N :=
  match parse_number k with
  | Some (z, EmptyString) => u32_of_json (JNum z)
  | _ => None
  end.

(** [HashMap::deserialize]: the entries are inserted in order, so a
    later duplicate key replaces an earlier one. *)
Definition map_of_json {A} (f : json -> option A) (j : json) : option (gmap N A) :=
  match j with
  | JObj ms =>
      kvs ← mapM (fun kv => k ← key_of_string kv.1; a ← f kv.2; Some (k, a)) ms;
      Some (fold_left (fun m kv => <[kv.1 := kv.2]> m) kvs ∅)
  | _ => None
  end.

Definition db_of_json (j : json) : option DbState :=
  match struct_of_json ["last_item_id"; "epics"; "stories"] j with
  | Some [l; e; s] =>
      l' ← u32_of_json l; e' ← map_of_json epic_of_json e; s' ← map_of_json story_of_json s;
      Some (mkDbState l' e' s')
  | _ => None
  end.

(* ------------------------------------------------------------------ *)
(** ** The JSON-file backend ([JsonFileDb]) *)

(** The file at [file_path]: its content, if it exists, as bytes, and
    whether it can be written. *)
Record FileSys := mkFileSys {
  file_content : option string;
  file_writable : bool
}.

(** [JsonFileDb::read]: [fs::read_to_string(..)?] (an I/O error when the
    file is missing or is not UTF-8) then [serde_json::from_str(..)?];
    [JsonFileDb::write]: [serde_json::to_vec(state)?] then
    [fs::write(..)?]. *)
#[global] Instance JsonFileDb : Database FileSys := {
  db_read := fun fs =>
    match file_content fs with
    | None => (Err IoError, fs)
    | Some s =>
        if utf8_valid (bytes_of s) then
          match json_from_str s ≫= db_of_json with
          | Some st => (Ok st, fs)
          | None => (Err FormatError, fs)
          end
        else (Err IoError, fs)
    end;
  db_write := fun st fs =>
    if file_writable fs then (Ok tt, mkFileSys (Some (print_json (db_to_json st))) true)
    else (Err IoError, fs)
}.

(** A [DbState] whose values fit the Rust types: [u32] ids and counter,
    and names and descriptions that are [String]s, so UTF-8. Every value
    of the Rust type [DbState] is one. *)
Definition valid_state (st : DbState) : Prop :=
  last_item_id st <= u32_max /\
  (forall k e, epics st !! k = Some e ->
     k <= u32_max /\ Forall (fun i => i <= u32_max) (epic_stories e) /\
     utf8_valid (bytes_of (epic_name e)) = true /\
     utf8_valid (bytes_of (epic_description e)) = true) /\
  (forall k s, stories st !! k = Some s ->
     k <= u32_max /\ utf8_valid (bytes_of (story_name s)) = true /\
     utf8_valid (bytes_of (story_description s)) = true).

(** [valid_state] as a check, for concrete states. *)
Definition valid_stateb (st : DbState) : bool :=
  (last_item_id st <=? u32_max) &&
  forallb (fun ke => (ke.1 <=? u32_max) && forallb (fun i => i <=? u32_max) (epic_stories ke.2) &&
                     utf8_valid (bytes_of (epic_name ke.2)) &&
                     utf8_valid (bytes_of (epic_description ke.2)))
          (map_to_list (epics st)) &&
  forallb (fun ks => (ks.1 <=? u32_max) && utf8_valid (bytes_of (story_name ks.2)) &&
                     utf8_valid (bytes_of (story_description ks.2)))
          (map_to_list (stories st)).

(** A writable database file holding the JSON text of [st], as [write]
    leaves it. *)
Definition db_file (st : DbState) : FileSys :=
  mkFileSys (Some (print_json (db_to_json st))) true.


(* ------------------------------------------------------------------ *)
(** ** Table cells ([ui/pages_helpers.rs]) *)

(** A [&str] as its extended grapheme clusters ([unicode-segmentation]'s
    [graphemes(true)]), each a non-empty UTF-8 byte string; the [str] is
    their concatenation. *)
Definition text_str (t : list string) : string := foldr String.append EmptyString t.

(** [ellipse]'s [truncate_ellipse(len)] on [&str]: the text itself when
    it has at most [len] graphemes, [""] when [len] is [0], else its first
    [len] graphemes followed by ["..."]. *)
Definition truncate_ellipse (t : list string) (len : nat) : string :=
  if Nat.leb (length t) len then text_str t
  else if Nat.eqb len 0 then EmptyString
  else text_str (take len t) +:+ "...".

(** [n] spaces ([output_string.push(' ')] in a loop). *)
Fixpoint spaces (n : nat) : string :=
  match n with O => EmptyString | S k => String " "%char (spaces k) end.

(** [get_column_string]: [text.len()] is the length in bytes. *)
Definition get_column_string (t : list string) (width : nat) : string :=
  let text := text_str t in
  let len := String.length text in
  match Nat.compare len width with
  | Eq => text
  | Lt => text +:+ spaces (width - len)
  | Gt =>
      if Nat.eqb width 0 then EmptyString
      else if Nat.eqb width 1 then "."
      else if Nat.eqb width 2 then ".."
      else if Nat.eqb width 3 then "..."
      else truncate_ellipse t (width - 3)
  end.

(** ASCII text, one byte per grapheme. *)
Definition ascii_graphemes (s : string) : list string :=
  map (fun c => String c EmptyString) (String.list_ascii_of_string s).

(** ["é"] (U+00E9): one grapheme of two bytes. *)
Definition e_acute : string := String "195"%char (String "169"%char EmptyString).

(* ------------------------------------------------------------------ *)
(** ** Prompts ([ui/prompts.rs]) *)

(** The prompts read a line with [io::get_input] ([io.rs] is not in the
    sources); they are modelled as functions of the [String] it returns. *)

(** The UTF-8 encodings of the code points with Unicode's [White_Space]
    property ([char::is_whitespace]). *)
Definition white_space : list (list N) :=
  [[9]; [10]; [11]; [12]; [13]; [32]; [194; 133]; [194; 160]; [225; 154; 128];
   [226; 128; 128]; [226; 128; 129]; [226; 128; 130]; [226; 128; 131];
   [226; 128; 132]; [226; 128; 133]; [226; 128; 134]; [226; 128; 135];
   [226; 128; 136]; [226; 128; 137]; [226; 128; 138]; [226; 128; 168];
   [226; 128; 169]; [226; 128; 175]; [226; 129; 159]; [227; 128; 128]].

Fixpoint is_prefix (w l : list N) : bool :=
  match w, l with
  | [], _ => true
  | a :: w', b :: l' => (a =? b) && is_prefix w' l'
  | _, _ => false
  end.

(** Remove leading encodings in [codes] ([fuel] bounds the steps). *)
Fixpoint strip_codes (codes : list (list N)) (fuel : nat) (l : list N) : list N :=
  match fuel with
  | O => l
  | S f =>
      match List.find (fun w => is_prefix w l) codes with
      | Some w => strip_codes codes f (drop (length w) l)
      | None => l
      end
  end.

(** [str::trim_start] and [str::trim_end] on the bytes. *)
Definition trim_start (l : list N) : list N := strip_codes white_space (length l) l.
Definition trim_end (l : list N) : list N :=
  rev (strip_codes (map (@rev N) white_space) (length l) (rev l)).
Definition trim (l : list N) : list N := trim_end (trim_start l).

(** [delete_epic_prompt] and [delete_story_prompt] on the line read by
    [get_input]: [answer.trim().eq("Y")]. *)
Definition delete_epic_prompt (answer : string) : bool :=
  bool_decide (trim (bytes_of answer) = [89]).
Definition delete_story_prompt (answer : string) : bool :=
  bool_decide (trim (bytes_of answer) = [89]).

(** The digits of [u32::from_str]: [checked_mul]/[checked_add] fail on
    overflow, a non-digit is [InvalidDigit]. *)
Fixpoint u32_digits (l : list N) (acc : N) : option N :=
  match l with
  | [] => Some acc
  | b :: l' =>
      if (48 <=? b) && (b <=? 57) then
        let a := acc * 10 + (b - 48) in
        if a <=? u32_max then u32_digits l' a else None
      else None
  end.

(** [<u32 as FromStr>::from_str]: empty is an error; a leading ['+'] is
    skipped unless it is alone; ['-'] alone is an error and otherwise an
    invalid digit (the type is unsigned). *)
Definition parse_u32 (s : string) : option N :=
  match bytes_of s with
  | [] => None
  | b :: rest =>
      if (b =? 43) || (b =? 45) then
        match rest with
        | [] => None
        | _ => if b =? 43 then u32_digits rest 0 else u32_digits (b :: rest) 0
        end
      else u32_digits (b :: rest) 0
  end.

(** [update_status_prompt] on the line read by [get_input]. *)
Definition update_status_prompt (status : string) : option Status :=
  match parse_u32 status with
  | Some 1 => Some Open
  | Some 2 => Some InProgress
  | Some 3 => Some Resolved
  | Some 4 => Some Closed
  | _ => None
  end.

(** The status numbered [n] in the prompt's text (1 - OPEN,
    2 - IN-PROGRESS, 3 - RESOLVED, 4 - CLOSED). *)
Definition status_number (st : Status) : N :=
  match st with Open => 1 | InProgress => 2 | Resolved => 3 | Closed => 4 end.

Definition prefix_free (codes : list (list N)) : bool :=
  forallb (fun w1 => forallb (fun w2 => negb (is_prefix w1 w2) || bool_decide (w1 = w2)) codes) codes.

(** ** Proofs *)

(** The tests of [db.rs], run on the model. *)
Example create_story_should_work :
  match create_epic (Epic_new "" "") MockDB_new with
  | (Ok eid, st) =>
      match create_story (Story_new "" "") eid st with
      | (Ok sid, st') =>
          sid = 2 /\ last_item_id st' = 2 /\
          (epic_stories <$> epics st' !! eid) = Some [2]
      | _ => False
      end
  | _ => False
  end.
Proof. vm_compute. auto. Qed.

(** [print_json] writes compact JSON. *)
Example print_ex :
  print_json (JObj [("a", JArr [JNum 12; JNum (-3)]); ("b", JStr "x")]) = "{" +:+ str1 dq +:+ "a" +:+ str1 dq +:+ ":[12,-3]," +:+ str1 dq +:+ "b" +:+ str1 dq +:+ ":" +:+ str1 dq +:+ "x" +:+ str1 dq +:+ "}".
Proof. reflexivity. Qed.

(** Escapes in strings are read back. *)
Example parse_ex :
  let v := JObj [("a", JArr [JNum 12; JNum (-3); JNull]); ("b" +:+ str1 (chr 10) +:+ str1 dq, JStr "x"); ("c", JObj [])] in
  json_from_str (print_json v) = Some v.
Proof. vm_compute. reflexivity. Qed.

(** Whitespace between tokens is skipped when reading. *)
Example parse_ex2 :
  json_from_str (" { " +:+ str1 dq +:+ "a" +:+ str1 dq +:+ " : [ 1 , 2 ] } ") = Some (JObj [("a", JArr [JNum 1; JNum 2])]).
Proof. vm_compute. reflexivity. Qed.

(* ------------------------------------------------------------------ *)
(** ** The repository operations on the in-memory backend *)


Lemma create_epic_mock (epic : Epic) (st : DbState) :
  create_epic epic st =
  if last_item_id st + 1 <=? u32_max
  then (Ok (last_item_id st + 1),
        mkDbState (last_item_id st + 1) (<[last_item_id st + 1 := epic]> (epics st))
                  (stories st))
  else (Panic overflow_msg, st).
Proof.
  unfold create_epic, bind, u32_add; simpl.
  destruct (last_item_id st + 1 <=? u32_max); reflexivity.
Qed.

Lemma create_story_mock (story : Story) (epic_id : N) (st : DbState) :
  create_story story epic_id st =
  if last_item_id st + 1 <=? u32_max
  then match epics st !! epic_id with
       | None => (Err (Anyhow msg_epic_not_found), st)
       | Some e =>
           (Ok (last_item_id st + 1),
            mkDbState (last_item_id st + 1)
              (<[epic_id := set_epic_stories e (epic_stories e ++ [last_item_id st + 1])]>
                 (epics st))
              (<[last_item_id st + 1 := story]> (stories st)))
       end
  else (Panic overflow_msg, st).
Proof.
  unfold create_story, bind, u32_add; simpl.
  destruct (last_item_id st + 1 <=? u32_max); [|reflexivity].
  simpl. destruct (epics st !! epic_id); reflexivity.
Qed.

Lemma delete_epic_mock (epic_id : N) (st : DbState) :
  delete_epic epic_id st =
  match epics st !! epic_id with
  | None => (Err (Anyhow msg_epic_not_found), st)
  | Some e =>
      (Ok tt, mkDbState (last_item_id st) (delete epic_id (epics st))
                (fold_left (fun m id => delete id m) (epic_stories e) (stories st)))
  end.
Proof.
  unfold delete_epic, bind; simpl.
  destruct (epics st !! epic_id); reflexivity.
Qed.

Lemma vec_remove_position {A} (p : A -> bool) (l : list A) (i : nat) :
  position p l = Some i ->
  exists l1 x l2, l = l1 ++ x :: l2 /\ length l1 = i /\ p x = true /\
    Forall (fun y => p y = false) l1 /\ vec_remove i l = Some (l1 ++ l2).
Proof.
  revert i; induction l as [|y l IH]; intros i Hp; simpl in Hp; [discriminate|].
  destruct (p y) eqn:Hy.
  - injection Hp as <-. exists [], y, l. repeat split; auto.
  - destruct (position p l) as [j|] eqn:Hj; simpl in Hp; [|discriminate].
    injection Hp as <-.
    destruct (IH j eq_refl) as (l1 & x & l2 & -> & Hlen & Hx & Hf & Hr).
    exists (y :: l1), x, l2. simpl. repeat split; auto.
    rewrite Hr. reflexivity.
Qed.

Lemma position_None {A} (p : A -> bool) (l : list A) :
  position p l = None <-> Forall (fun y => p y = false) l.
Proof.
  induction l as [|y l IH]; simpl; [split; auto|].
  destruct (p y) eqn:Hy.
  - split; [discriminate| intros Hf; inversion Hf; congruence].
  - destruct (position p l); simpl; split; intros Hc.
    + discriminate.
    + inversion Hc; subst. apply IH in H2. discriminate.
    + constructor; [assumption| apply IH; reflexivity].
    + reflexivity.
Qed.

Lemma delete_story_mock (epic_id story_id : N) (st : DbState) :
  delete_story epic_id story_id st =
  match epics st !! epic_id with
  | None => (Err (Anyhow msg_epic_not_found), st)
  | Some e =>
      match position (fun id => N.eqb id story_id) (epic_stories e) with
      | None => (Err (Anyhow msg_story_not_linked), st)
      | Some i =>
          match vec_remove i (epic_stories e) with
          | None => (Panic "removal index out of bounds", st)
          | Some l =>
              (Ok tt, mkDbState (last_item_id st)
                        (<[epic_id := set_epic_stories e l]> (epics st))
                        (delete story_id (stories st)))
          end
      end
  end.
Proof.
  unfold delete_story, bind; simpl.
  destruct (epics st !! epic_id); [|reflexivity]. simpl.
  destruct (position _ _); [|reflexivity]. simpl.
  destruct (vec_remove _ _); reflexivity.
Qed.

Lemma update_epic_status_mock (epic_id : N) (status : Status) (st : DbState) :
  update_epic_status epic_id status st =
  match epics st !! epic_id with
  | None => (Err (Anyhow msg_epic_not_found), st)
  | Some e => (Ok tt, mkDbState (last_item_id st)
                        (<[epic_id := set_epic_status e status]> (epics st)) (stories st))
  end.
Proof.
  unfold update_epic_status, bind; simpl.
  destruct (epics st !! epic_id); reflexivity.
Qed.

Lemma update_story_status_mock (story_id : N) (status : Status) (st : DbState) :
  update_story_status story_id status st =
  match stories st !! story_id with
  | None => (Err (Anyhow msg_epic_not_found), st)
  | Some s => (Ok tt, mkDbState (last_item_id st) (epics st)
                        (<[story_id := set_story_status s status]> (stories st)))
  end.
Proof.
  unfold update_story_status, bind; simpl.
  destruct (stories st !! story_id); reflexivity.
Qed.

Lemma fold_delete_lookup (l : list N) (m : gmap N Story) (k : N) :
  fold_left (fun m id => delete id m) l m !! k =
  if decide (k ∈ l) then None else m !! k.
Proof.
  revert m; induction l as [|x l IH]; intros m; simpl.
  - destruct (decide (k ∈ [])) as [Hin|]; [inversion Hin|reflexivity].
  - rewrite IH. destruct (decide (k ∈ l)) as [Hl|Hl].
    + destruct (decide (k ∈ x :: l)); [reflexivity|set_solver].
    + destruct (decide (k ∈ x :: l)) as [Hx|Hx].
      * assert (x = k) as -> by set_solver. apply lookup_delete_eq.
      * apply lookup_delete_ne. set_solver.
Qed.

Lemma valid_stateb_sound (st : DbState) : valid_stateb st = true -> valid_state st.
Proof.
  unfold valid_stateb. intros H. apply andb_prop in H as [H Hs].
  apply andb_prop in H as [Hl He]. split; [apply N.leb_le, Hl|split].
  - intros k e Hk. rewrite forallb_forall in He.
    assert (Hin : In (k, e) (map_to_list (epics st)))
      by (apply list_elem_of_In, elem_of_map_to_list, Hk).
    specialize (He _ Hin). simpl in He. rewrite !andb_true_iff in He.
    destruct He as [[[Hk' Hf] Hn] Hd]. split; [apply N.leb_le, Hk'|split; [|split; assumption]].
    apply Forall_forall. intros i Hi. rewrite forallb_forall in Hf.
    apply N.leb_le, Hf, list_elem_of_In, Hi.
  - intros k x Hk. rewrite forallb_forall in Hs.
    assert (Hin : In (k, x) (map_to_list (stories st)))
      by (apply list_elem_of_In, elem_of_map_to_list, Hk).
    specialize (Hs _ Hin). simpl in Hs. rewrite !andb_true_iff in Hs.
    destruct Hs as [[Hk' Hn] Hd]. split; [apply N.leb_le, Hk'|split; assumption].
Qed.

(* ------------------------------------------------------------------ *)
(** ** Claims about the repository operations *)

(** C1 (amended). For every story, epic id and state whose counter is
    below [u32::MAX]: with the epic absent, [create_story] returns the
    not-found error and the persisted state is unchanged (on every
    backend, nothing is written after the read); with the epic present,
    it allocates [last_item_id + 1], stores it as the counter, inserts the
    story under it, appends it at the end of the epic's [stories], and
    returns it. *)
Theorem create_story_spec (story : Story) (epic_id : N) (st : DbState) :
  last_item_id st < u32_max ->
  (epics st !! epic_id = None ->
     create_story story epic_id st = (Err (Anyhow msg_epic_not_found), st) /\
     forall (B : Type) (db : Database B) (b b1 : B),
       @db_read B db b = (Ok st, b1) ->
       @create_story B db story epic_id b = (Err (Anyhow msg_epic_not_found), b1)) /\
  (forall e, epics st !! epic_id = Some e ->
     create_story story epic_id st =
       (Ok (last_item_id st + 1),
        mkDbState (last_item_id st + 1)
          (<[epic_id := set_epic_stories e (epic_stories e ++ [last_item_id st + 1])]>
             (epics st))
          (<[last_item_id st + 1 := story]> (stories st)))).
Proof.
  intros Hlt.
  assert (Hb : (last_item_id st + 1 <=? u32_max) = true) by (apply N.leb_le; lia).
  split.
  - intros Hnone. split.
    + rewrite create_story_mock, Hb, Hnone. reflexivity.
    + intros B db b b1 Hr. unfold create_story, bind, u32_add.
      rewrite Hr, Hb. simpl. rewrite Hnone. reflexivity.
  - intros e He. rewrite create_story_mock, Hb, He. reflexivity.
Qed.

Lemma create_story_spec_witness :
  last_item_id st_one_epic < u32_max /\
  create_story (Story_new "s" "") 1 st_one_epic =
    (Ok 2, mkDbState 2
             (<[1 := set_epic_stories (Epic_new "e" "") ([] ++ [2])]> (epics st_one_epic))
             (<[2 := Story_new "s" ""]> (stories st_one_epic))).
Proof.
  assert (Hlt : last_item_id st_one_epic < u32_max) by (vm_compute; reflexivity).
  split; [exact Hlt|].
  apply (proj2 (create_story_spec (Story_new "s" "") 1 st_one_epic Hlt)).
  vm_compute. reflexivity.
Defined.

(** C1, counterexample: at [last_item_id = u32::MAX] the [u32] addition
    that allocates the id overflows before the epic is looked up, so
    [create_story] against an absent epic panics instead of returning the
    not-found error. *)
Lemma create_story_overflow_counterexample :
  create_story (Story_new "" "") 1 (mkDbState u32_max ∅ ∅) =
    (Panic overflow_msg, mkDbState u32_max ∅ ∅) /\
  create_story (Story_new "" "") 1 (mkDbState u32_max ∅ ∅) <>
    (Err (Anyhow msg_epic_not_found), mkDbState u32_max ∅ ∅).
Proof. split; vm_compute; [reflexivity|discriminate]. Qed.

(** C2. [delete_epic] fails with the not-found error and leaves the
    state unchanged when the epic is absent; otherwise it removes exactly
    the story ids listed in that epic, then the epic, and leaves every
    other story, every other epic and [last_item_id] unchanged. *)
Theorem delete_epic_spec (epic_id : N) (st : DbState) :
  (epics st !! epic_id = None ->
     delete_epic epic_id st = (Err (Anyhow msg_epic_not_found), st)) /\
  (forall e, epics st !! epic_id = Some e ->
     exists st', delete_epic epic_id st = (Ok tt, st') /\
       last_item_id st' = last_item_id st /\
       epics st' !! epic_id = None /\
       (forall k, k <> epic_id -> epics st' !! k = epics st !! k) /\
       (forall k, k ∈ epic_stories e -> stories st' !! k = None) /\
       (forall k, k ∉ epic_stories e -> stories st' !! k = stories st !! k)).
Proof.
  split.
  - intros Hn. rewrite delete_epic_mock, Hn. reflexivity.
  - intros e He. rewrite delete_epic_mock, He.
    eexists; split; [reflexivity|]. simpl.
    split; [reflexivity|]. split; [apply lookup_delete_eq|].
    split; [intros k Hk; apply lookup_delete_ne; congruence|].
    split; intros k Hk; rewrite fold_delete_lookup.
    + destruct (decide (k ∈ epic_stories e)); [reflexivity|contradiction].
    + destruct (decide (k ∈ epic_stories e)); [contradiction|reflexivity].
Qed.

Lemma delete_epic_spec_witness :
  exists st', delete_epic 1 st_epic_story = (Ok tt, st') /\
    last_item_id st' = 2 /\ epics st' !! 1 = None /\ stories st' !! 2 = None.
Proof.
  assert (He : epics st_epic_story !! 1 = Some epic_e2) by (vm_compute; reflexivity).
  destruct (proj2 (delete_epic_spec 1 st_epic_story) epic_e2 He)
    as (st' & Hd & Hl & He' & _ & Hs & _).
  exists st'. split; [exact Hd|]. split; [exact Hl|]. split; [exact He'|].
  apply Hs. vm_compute. left.
Defined.

Lemma position_first (story_id : N) (l1 l2 : list N) :
  story_id ∉ l1 ->
  position (fun id => N.eqb id story_id) (l1 ++ story_id :: l2) = Some (length l1).
Proof.
  induction l1 as [|y l1 IH]; intros Hn; simpl.
  - rewrite N.eqb_refl. reflexivity.
  - destruct (N.eqb_spec y story_id) as [->|Hne]; [set_solver|].
    rewrite IH by set_solver. reflexivity.
Qed.

Lemma vec_remove_app {A} (l1 l2 : list A) (x : A) :
  vec_remove (length l1) (l1 ++ x :: l2) = Some (l1 ++ l2).
Proof.
  induction l1 as [|y l1 IH]; simpl; [reflexivity|]. rewrite IH. reflexivity.
Qed.

(** C4. [delete_story] returns the epic-not-found error when the epic
    is absent, and the distinct not-linked error when the story id is not
    in the epic's [stories], whatever the [stories] map holds; both
    failures leave the persisted state unchanged. On success the (first)
    occurrence of the story id is removed from the epic's [stories] and
    the key is removed from the [stories] map. *)
Theorem delete_story_spec (epic_id story_id : N) (st : DbState) :
  (epics st !! epic_id = None ->
     delete_story epic_id story_id st = (Err (Anyhow msg_epic_not_found), st)) /\
  (forall e, epics st !! epic_id = Some e -> story_id ∉ epic_stories e ->
     delete_story epic_id story_id st = (Err (Anyhow msg_story_not_linked), st)) /\
  msg_story_not_linked <> msg_epic_not_found /\
  (forall e l1 l2, epics st !! epic_id = Some e ->
     epic_stories e = l1 ++ story_id :: l2 -> story_id ∉ l1 ->
     delete_story epic_id story_id st =
       (Ok tt, mkDbState (last_item_id st)
                 (<[epic_id := set_epic_stories e (l1 ++ l2)]> (epics st))
                 (delete story_id (stories st)))).
Proof.
  split; [|split; [|split]].
  - intros Hn. rewrite delete_story_mock, Hn. reflexivity.
  - intros e He Hn. rewrite delete_story_mock, He.
    replace (position _ (epic_stories e)) with (@None nat); [reflexivity|].
    symmetry. apply position_None. apply Forall_forall.
    intros y Hy. apply N.eqb_neq. intros ->. apply Hn. by apply list_elem_of_In.
  - vm_compute. discriminate.
  - intros e l1 l2 He Hl Hn. rewrite delete_story_mock, He, Hl.
    rewrite position_first by exact Hn. rewrite vec_remove_app. reflexivity.
Qed.

Lemma delete_story_spec_witness :
  delete_story 1 2 st_epic_story =
    (Ok tt, mkDbState 2 (<[1 := set_epic_stories epic_e2 ([] ++ [])]> (epics st_epic_story))
                        (delete 2 (stories st_epic_story))) /\
  delete_story 1 3 st_epic_story = (Err (Anyhow msg_story_not_linked), st_epic_story).
Proof.
  assert (He : epics st_epic_story !! 1 = Some epic_e2) by (vm_compute; reflexivity).
  split.
  - apply (proj2 (proj2 (proj2 (delete_story_spec 1 2 st_epic_story))) epic_e2 [] []
             He eq_refl).
    vm_compute. intros Hin. inversion Hin.
  - apply (proj1 (proj2 (delete_story_spec 1 3 st_epic_story)) epic_e2 He).
    vm_compute. set_solver.
Defined.

(** C5, counterexample: [create_epic] stores the epic it is given as it
    is; an epic that already lists a story id keeps that list. *)
Lemma create_epic_nonempty_counterexample :
  exists st', create_epic (mkEpic "" "" Open [7]) empty_state = (Ok 1, st') /\
              (epic_stories <$> epics st' !! 1) = Some [7] /\
              (epic_stories <$> epics st' !! 1) <> Some [].
Proof. eexists. split; [vm_compute; reflexivity|]. vm_compute. split; congruence. Qed.

(** C5 (amended). [Epic::new] yields status [Open] and an empty
    [stories]. On every backend, when the read yields a state whose
    counter is below [u32::MAX] and the write succeeds, [create_epic]
    writes the state with counter [last_item_id + 1] and the given epic,
    unchanged, inserted under that id, and returns the id. *)
Theorem create_epic_spec :
  (forall name description,
     epic_status (Epic_new name description) = Open /\
     epic_stories (Epic_new name description) = []) /\
  (forall (B : Type) (db : Database B) (epic : Epic) (st : DbState) (b b1 b2 : B),
     @db_read B db b = (Ok st, b1) ->
     last_item_id st < u32_max ->
     @db_write B db (mkDbState (last_item_id st + 1)
                       (<[last_item_id st + 1 := epic]> (epics st)) (stories st)) b1
       = (Ok tt, b2) ->
     @create_epic B db epic b = (Ok (last_item_id st + 1), b2)).
Proof.
  split; [intros; split; reflexivity|].
  intros B db epic st b b1 b2 Hr Hlt Hw.
  assert (Hb : (last_item_id st + 1 <=? u32_max) = true) by (apply N.leb_le; lia).
  unfold create_epic, bind, u32_add. rewrite Hr, Hb. simpl.
  unfold set_epics, set_last_item_id in *; simpl. rewrite Hw. reflexivity.
Qed.

Lemma create_epic_spec_witness :
  create_epic (Epic_new "e" "") empty_state =
    (Ok 1, mkDbState 1 (<[1 := Epic_new "e" ""]> ∅) ∅).
Proof.
  apply (proj2 create_epic_spec DbState MockDB (Epic_new "e" "") empty_state
           empty_state empty_state); vm_compute; reflexivity.
Defined.

(** C10. Neither create operation checks for a key collision: in a state
    (with [u32] ids) where [last_item_id + 1] is already a key,
    [create_epic] (and [create_story] on an existing epic) succeeds and
    overwrites the entity stored under that key. *)
Theorem create_overwrites_existing_key (st : DbState) (epic : Epic) (story : Story)
    (epic_id : N) :
  valid_state st ->
  (forall old, epics st !! (last_item_id st + 1) = Some old ->
     exists st', create_epic epic st = (Ok (last_item_id st + 1), st') /\
                 epics st' !! (last_item_id st + 1) = Some epic) /\
  (forall old e, stories st !! (last_item_id st + 1) = Some old ->
     epics st !! epic_id = Some e ->
     exists st', create_story story epic_id st = (Ok (last_item_id st + 1), st') /\
                 stories st' !! (last_item_id st + 1) = Some story).
Proof.
  intros (_ & Hep & Hst). split.
  - intros old Hold. destruct (Hep _ _ Hold) as [Hle _].
    rewrite create_epic_mock. apply N.leb_le in Hle. rewrite Hle.
    eexists; split; [reflexivity|]. apply lookup_insert_eq.
  - intros old e Hold He. destruct (Hst _ _ Hold) as [Hle _].
    rewrite create_story_mock. apply N.leb_le in Hle. rewrite Hle, He.
    eexists; split; [reflexivity|]. apply lookup_insert_eq.
Qed.

Lemma create_overwrites_existing_key_witness :
  valid_state (mkDbState 0 {[1 := Epic_new "old" ""]} {[1 := Story_new "old" ""]}) /\
  create_epic (Epic_new "new" "")
    (mkDbState 0 {[1 := Epic_new "old" ""]} {[1 := Story_new "old" ""]}) =
    (Ok 1, mkDbState 1 (<[1 := Epic_new "new" ""]> {[1 := Epic_new "old" ""]})
                       {[1 := Story_new "old" ""]}).
Proof.
  assert (Hv : valid_state (mkDbState 0 {[1 := Epic_new "old" ""]}
                                        {[1 := Story_new "old" ""]}))
    by (apply valid_stateb_sound; vm_compute; reflexivity).
  split; [exact Hv|].
  destruct (proj1 (create_overwrites_existing_key _ (Epic_new "new" "") (Story_new "" "") 1 Hv)
              (Epic_new "old" "") ltac:(vm_compute; reflexivity)) as (st' & Hc & _).
  rewrite Hc. f_equal. symmetry. vm_compute in Hc. injection Hc as <-. reflexivity.
Defined.

(** *** The repository invariant *)

Lemma max_list_snoc (l : list N) (n : N) :
  max_list (l ++ [n]) = N.max (max_list l) n.
Proof.
  induction l as [|x l IH]; simpl; [lia|]. rewrite IH. lia.
Qed.

Lemma max_list_ge (l : list N) : Forall (fun i => i <= max_list l) l.
Proof.
  induction l as [|x l IH]; simpl; constructor; [lia|].
  eapply Forall_impl; [exact IH|]. simpl. intros i Hi. lia.
Qed.

Lemma ssorted_snoc (l : list N) (n : N) :
  StronglySorted N.lt l -> Forall (fun i => i < n) l -> StronglySorted N.lt (l ++ [n]).
Proof.
  induction l as [|x l IH]; simpl; intros Hs Hf.
  - repeat constructor.
  - inversion Hs; subst. inversion Hf; subst. constructor; [auto|].
    apply Forall_app; split; [assumption|]. constructor; [assumption|constructor].
Qed.

(** Rewrites a hypothesis [<[i:=x]> m !! j = Some y] into its two cases. *)
Ltac lookup_insert_cases H :=
  rewrite lookup_insert in H;
  let Heq := fresh "Heq" in
  destruct (decide _) as [Heq|Heq]; [subst; injection H as <-|].

(** A new id [last_item_id + 1] is listed by no epic. *)
Lemma fresh_not_listed (st : DbState) (ids : list N) k e :
  repo_inv st ids -> epics st !! k = Some e ->
  last_item_id st + 1 ∉ epic_stories e.
Proof.
  intros Hinv He Hin. destruct (inv_linked _ _ Hinv k e _ He Hin) as [x Hx].
  pose proof (inv_story_keys _ _ Hinv _ _ Hx). lia.
Qed.

Lemma inv_snoc_fresh (st : DbState) (ids : list N) :
  repo_inv st ids ->
  last_item_id st + 1 = max_list (ids ++ [last_item_id st + 1]) /\
  StronglySorted N.lt (ids ++ [last_item_id st + 1]).
Proof.
  intros Hinv. rewrite max_list_snoc, <- (inv_last _ _ Hinv). split; [lia|].
  apply ssorted_snoc; [exact (inv_sorted _ _ Hinv)|].
  eapply Forall_impl; [apply max_list_ge|]. simpl.
  rewrite <- (inv_last _ _ Hinv). intros i Hi. lia.
Qed.

Lemma inv_create_epic (st : DbState) (ids : list N) (epic : Epic) :
  repo_inv st ids -> epic_stories epic = [] ->
  repo_inv (mkDbState (last_item_id st + 1)
              (<[last_item_id st + 1 := epic]> (epics st)) (stories st))
           (ids ++ [last_item_id st + 1]).
Proof.
  intros Hinv Hempty. destruct (inv_snoc_fresh _ _ Hinv) as [Hl Hs].
  constructor; simpl; [exact Hl|exact Hs| | | |].
  - intros k s Hk. pose proof (inv_story_keys _ _ Hinv _ _ Hk). lia.
  - intros k e i He Hi. lookup_insert_cases He.
    + rewrite Hempty in Hi. set_solver.
    + exact (inv_linked _ _ Hinv _ _ _ He Hi).
  - intros k e He. lookup_insert_cases He.
    + rewrite Hempty. constructor.
    + exact (inv_nodup _ _ Hinv _ _ He).
  - intros k1 k2 e1 e2 i H1 H2 Hi1 Hi2.
    lookup_insert_cases H1; [rewrite Hempty in Hi1; set_solver|].
    lookup_insert_cases H2; [rewrite Hempty in Hi2; set_solver|].
    exact (inv_owner _ _ Hinv _ _ _ _ _ H1 H2 Hi1 Hi2).
Qed.

Lemma is_Some_insert {V} (m : gmap N V) (n i : N) (v : V) :
  i = n \/ is_Some (m !! i) -> is_Some (<[n := v]> m !! i).
Proof.
  intros [->|Hs]; [rewrite lookup_insert_eq; eauto|].
  rewrite lookup_insert. case_decide; eauto.
Qed.

Lemma inv_create_story (st : DbState) (ids : list N) (story : Story) (epic_id : N) e :
  repo_inv st ids -> epics st !! epic_id = Some e ->
  repo_inv (mkDbState (last_item_id st + 1)
              (<[epic_id := set_epic_stories e (epic_stories e ++ [last_item_id st + 1])]>
                 (epics st))
              (<[last_item_id st + 1 := story]> (stories st)))
           (ids ++ [last_item_id st + 1]).
Proof.
  intros Hinv He. destruct (inv_snoc_fresh _ _ Hinv) as [Hl Hs].
  pose proof (fresh_not_listed _ _ _ _ Hinv He) as Hfresh.
  constructor; simpl; [exact Hl|exact Hs| | | |].
  - intros k s Hk. lookup_insert_cases Hk; [lia|].
    pose proof (inv_story_keys _ _ Hinv _ _ Hk). lia.
  - intros k e' i He' Hi. apply is_Some_insert.
    lookup_insert_cases He'; simpl in Hi.
    + apply elem_of_app in Hi as [Hi|Hi]; [right|left; set_solver].
      exact (inv_linked _ _ Hinv _ _ _ He Hi).
    + right. exact (inv_linked _ _ Hinv _ _ _ He' Hi).
  - intros k e' He'. lookup_insert_cases He'; simpl.
    + apply NoDup_app. split; [exact (inv_nodup _ _ Hinv _ _ He)|].
      split; [|apply NoDup_singleton]. intros x Hx Hx'.
      apply list_elem_of_singleton in Hx' as ->. contradiction.
    + exact (inv_nodup _ _ Hinv _ _ He').
  - intros k1 k2 e1 e2 i H1 H2 Hi1 Hi2.
    lookup_insert_cases H1; lookup_insert_cases H2; simpl in *; try reflexivity.
    + apply elem_of_app in Hi1 as [Hi1|Hi1].
      * exact (inv_owner _ _ Hinv _ _ _ _ _ He H2 Hi1 Hi2).
      * apply list_elem_of_singleton in Hi1 as ->.
        destruct (fresh_not_listed _ _ _ _ Hinv H2 Hi2).
    + apply elem_of_app in Hi2 as [Hi2|Hi2].
      * exact (inv_owner _ _ Hinv _ _ _ _ _ H1 He Hi1 Hi2).
      * apply list_elem_of_singleton in Hi2 as ->.
        destruct (fresh_not_listed _ _ _ _ Hinv H1 Hi1).
    + exact (inv_owner _ _ Hinv _ _ _ _ _ H1 H2 Hi1 Hi2).
Qed.

Lemma NoDup_remove_mid (l1 l2 : list N) (x : N) :
  NoDup (l1 ++ x :: l2) -> NoDup (l1 ++ l2) /\ x ∉ l1 ++ l2.
Proof.
  rewrite !NoDup_app, NoDup_cons. intros (Hn1 & Hdis & Hx & Hn2). split.
  - split; [exact Hn1|]. split; [|exact Hn2].
    intros y Hy Hy2. apply (Hdis y Hy). set_solver.
  - intros Hin. apply elem_of_app in Hin as [Hin|Hin]; [|contradiction].
    apply (Hdis x Hin). set_solver.
Qed.

Lemma inv_delete_epic (st : DbState) (ids : list N) (epic_id : N) e :
  repo_inv st ids -> epics st !! epic_id = Some e ->
  repo_inv (mkDbState (last_item_id st) (delete epic_id (epics st))
              (fold_left (fun m id => delete id m) (epic_stories e) (stories st)))
           ids.
Proof.
  intros Hinv He.
  constructor; simpl; [exact (inv_last _ _ Hinv)|exact (inv_sorted _ _ Hinv)| | | |].
  - intros k s Hk. rewrite fold_delete_lookup in Hk.
    destruct (decide _) in Hk; [discriminate|].
    exact (inv_story_keys _ _ Hinv _ _ Hk).
  - intros k e' i He' Hi. apply lookup_delete_Some in He' as [Hne He'].
    rewrite fold_delete_lookup. destruct (decide (i ∈ epic_stories e)) as [Hie|Hie].
    + destruct Hne. exact (inv_owner _ _ Hinv _ _ _ _ _ He He' Hie Hi).
    + exact (inv_linked _ _ Hinv _ _ _ He' Hi).
  - intros k e' He'. apply lookup_delete_Some in He' as [_ He'].
    exact (inv_nodup _ _ Hinv _ _ He').
  - intros k1 k2 e1 e2 i H1 H2 Hi1 Hi2.
    apply lookup_delete_Some in H1 as [_ H1]. apply lookup_delete_Some in H2 as [_ H2].
    exact (inv_owner _ _ Hinv _ _ _ _ _ H1 H2 Hi1 Hi2).
Qed.

Lemma inv_delete_story (st : DbState) (ids : list N) (epic_id story_id : N) e l1 l2 :
  repo_inv st ids -> epics st !! epic_id = Some e ->
  epic_stories e = l1 ++ story_id :: l2 ->
  repo_inv (mkDbState (last_item_id st)
              (<[epic_id := set_epic_stories e (l1 ++ l2)]> (epics st))
              (delete story_id (stories st)))
           ids.
Proof.
  intros Hinv He Hl.
  pose proof (inv_nodup _ _ Hinv _ _ He) as Hnd. rewrite Hl in Hnd.
  apply NoDup_remove_mid in Hnd as [Hnd Hsid].
  assert (Hsub : forall i, i ∈ l1 ++ l2 -> i ∈ epic_stories e) by (rewrite Hl; set_solver).
  assert (Hsin : story_id ∈ epic_stories e) by (rewrite Hl; set_solver).
  constructor; simpl; [exact (inv_last _ _ Hinv)|exact (inv_sorted _ _ Hinv)| | | |].
  - intros k s Hk. apply lookup_delete_Some in Hk as [_ Hk].
    exact (inv_story_keys _ _ Hinv _ _ Hk).
  - intros k e' i He' Hi. lookup_insert_cases He'; simpl in Hi.
    + rewrite lookup_delete_ne by (intros ->; contradiction).
      exact (inv_linked _ _ Hinv _ _ _ He (Hsub _ Hi)).
    + rewrite lookup_delete_ne.
      * exact (inv_linked _ _ Hinv _ _ _ He' Hi).
      * intros ->. apply Heq. exact (inv_owner _ _ Hinv _ _ _ _ _ He He' Hsin Hi).
  - intros k e' He'. lookup_insert_cases He'; [exact Hnd|].
    exact (inv_nodup _ _ Hinv _ _ He').
  - intros k1 k2 e1 e2 i H1 H2 Hi1 Hi2.
    lookup_insert_cases H1; lookup_insert_cases H2; simpl in *; try reflexivity.
    + exact (inv_owner _ _ Hinv _ _ _ _ _ He H2 (Hsub _ Hi1) Hi2).
    + exact (inv_owner _ _ Hinv _ _ _ _ _ H1 He Hi1 (Hsub _ Hi2)).
    + exact (inv_owner _ _ Hinv _ _ _ _ _ H1 H2 Hi1 Hi2).
Qed.

Lemma inv_update_epic_status (st : DbState) (ids : list N) (epic_id : N) status e :
  repo_inv st ids -> epics st !! epic_id = Some e ->
  repo_inv (mkDbState (last_item_id st)
              (<[epic_id := set_epic_status e status]> (epics st)) (stories st)) ids.
Proof.
  intros Hinv He.
  constructor; simpl; [exact (inv_last _ _ Hinv)|exact (inv_sorted _ _ Hinv)
                      |exact (inv_story_keys _ _ Hinv)| | |].
  - intros k e' i He' Hi. lookup_insert_cases He'; simpl in Hi.
    + exact (inv_linked _ _ Hinv _ _ _ He Hi).
    + exact (inv_linked _ _ Hinv _ _ _ He' Hi).
  - intros k e' He'. lookup_insert_cases He'; simpl.
    + exact (inv_nodup _ _ Hinv _ _ He).
    + exact (inv_nodup _ _ Hinv _ _ He').
  - intros k1 k2 e1 e2 i H1 H2 Hi1 Hi2.
    lookup_insert_cases H1; lookup_insert_cases H2; simpl in *; try reflexivity.
    + exact (inv_owner _ _ Hinv _ _ _ _ _ He H2 Hi1 Hi2).
    + exact (inv_owner _ _ Hinv _ _ _ _ _ H1 He Hi1 Hi2).
    + exact (inv_owner _ _ Hinv _ _ _ _ _ H1 H2 Hi1 Hi2).
Qed.

Lemma inv_update_story_status (st : DbState) (ids : list N) (story_id : N) status s :
  repo_inv st ids -> stories st !! story_id = Some s ->
  repo_inv (mkDbState (last_item_id st) (epics st)
              (<[story_id := set_story_status s status]> (stories st))) ids.
Proof.
  intros Hinv Hs.
  constructor; simpl; [exact (inv_last _ _ Hinv)|exact (inv_sorted _ _ Hinv)| | |
                      exact (inv_nodup _ _ Hinv)|exact (inv_owner _ _ Hinv)].
  - intros k s' Hk. lookup_insert_cases Hk.
    + exact (inv_story_keys _ _ Hinv _ _ Hs).
    + exact (inv_story_keys _ _ Hinv _ _ Hk).
  - intros k e i He Hi. apply is_Some_insert. right.
    exact (inv_linked _ _ Hinv _ _ _ He Hi).
Qed.

Lemma inv_exec_op (st : DbState) (ids : list N) (op : Op) :
  repo_inv st ids ->
  match op with OpCreateEpic e => epic_stories e = [] | _ => True end ->
  repo_inv (exec_op op st).2 (ids ++ allocated (exec_op op st).1).
Proof.
  intros Hinv Hop.
  destruct op as [e|s eid|eid|eid sid|eid status|sid status]; cbn [exec_op]; unfold bind.
  - rewrite create_epic_mock. destruct (_ <=? _); simpl.
    + exact (inv_create_epic _ _ _ Hinv Hop).
    + rewrite app_nil_r. exact Hinv.
  - rewrite create_story_mock. destruct (_ <=? _); simpl.
    + destruct (epics st !! eid) as [e|] eqn:He; simpl.
      * exact (inv_create_story _ _ s _ _ Hinv He).
      * rewrite app_nil_r. exact Hinv.
    + rewrite app_nil_r. exact Hinv.
  - rewrite delete_epic_mock.
    destruct (epics st !! eid) as [e|] eqn:He; simpl; rewrite ?app_nil_r; [|exact Hinv].
    exact (inv_delete_epic _ _ _ _ Hinv He).
  - rewrite delete_story_mock.
    destruct (epics st !! eid) as [e|] eqn:He; simpl; rewrite ?app_nil_r; [|exact Hinv].
    destruct (position _ _) as [i|] eqn:Hp; simpl; rewrite ?app_nil_r; [|exact Hinv].
    destruct (vec_remove_position _ _ _ Hp) as (l1 & x & l2 & Hl & _ & Hx & _ & Hr).
    apply N.eqb_eq in Hx as ->. rewrite Hr. simpl. rewrite app_nil_r.
    exact (inv_delete_story _ _ _ _ _ _ _ Hinv He Hl).
  - rewrite update_epic_status_mock.
    destruct (epics st !! eid) as [e|] eqn:He; simpl; rewrite ?app_nil_r; [|exact Hinv].
    exact (inv_update_epic_status _ _ _ _ _ Hinv He).
  - rewrite update_story_status_mock.
    destruct (stories st !! sid) as [s|] eqn:Hs; simpl; rewrite ?app_nil_r; [|exact Hinv].
    exact (inv_update_story_status _ _ _ _ _ Hinv Hs).
Qed.

Lemma inv_run (ops : list Op) (st : DbState) (ids : list N) :
  repo_inv st ids -> creates_fresh_epics ops ->
  repo_inv (run ops st ids).1 (run ops st ids).2.
Proof.
  revert st ids; induction ops as [|op ops IH]; intros st ids Hinv Hf; simpl; [exact Hinv|].
  inversion Hf as [|? ? Hop Hf']; subst.
  pose proof (inv_exec_op st ids op Hinv Hop) as Hstep.
  destruct (exec_op op st) as [res st1]. simpl in Hstep.
  exact (IH st1 _ Hstep Hf').
Qed.

Lemma inv_empty : repo_inv empty_state [].
Proof.
  constructor; simpl; try reflexivity; try constructor;
    intros *; rewrite ?lookup_empty; discriminate.
Qed.

Lemma ssorted_lt_NoDup (l : list N) : StronglySorted N.lt l -> NoDup l.
Proof.
  induction 1 as [|x l _ IH Hf]; constructor; [|exact IH].
  intros Hin.
  rewrite Forall_forall in Hf. specialize (Hf x Hin). lia.
Qed.

Lemma delete_epic_keeps_last (epic_id : N) (st : DbState) :
  last_item_id (delete_epic epic_id st).2 = last_item_id st.
Proof. rewrite delete_epic_mock. destruct (epics st !! epic_id); reflexivity. Qed.

Lemma delete_story_keeps_last (epic_id story_id : N) (st : DbState) :
  last_item_id (delete_story epic_id story_id st).2 = last_item_id st.
Proof.
  rewrite delete_story_mock. destruct (epics st !! epic_id); [|reflexivity].
  destruct (position _ _); [|reflexivity]. destruct (vec_remove _ _); reflexivity.
Qed.

(** C3 (amended). From the empty state, along every sequence of
    repository calls whose created epics come with an empty [stories]
    list (as [Epic::new] builds them): [last_item_id] is the largest id
    allocated so far, the allocated ids increase strictly and never
    repeat, and every id listed by an epic is a key of [stories]. No
    delete changes [last_item_id]. *)
Theorem repo_invariant :
  (forall ops : list Op,
     creates_fresh_epics ops ->
     let '(st, ids) := run ops empty_state [] in
     last_item_id st = max_list ids /\
     StronglySorted N.lt ids /\ NoDup ids /\
     (forall k e i, epics st !! k = Some e -> i ∈ epic_stories e ->
                    is_Some (stories st !! i))) /\
  (forall (st : DbState) (epic_id : N),
     last_item_id (delete_epic epic_id st).2 = last_item_id st) /\
  (forall (st : DbState) (epic_id story_id : N),
     last_item_id (delete_story epic_id story_id st).2 = last_item_id st).
Proof.
  split; [|split; intros; [apply delete_epic_keeps_last|apply delete_story_keeps_last]].
  intros ops Hf. pose proof (inv_run ops empty_state [] inv_empty Hf) as Hinv.
  destruct (run ops empty_state []) as [st ids]. simpl in Hinv.
  split; [exact (inv_last _ _ Hinv)|]. split; [exact (inv_sorted _ _ Hinv)|].
  split; [exact (ssorted_lt_NoDup _ (inv_sorted _ _ Hinv))|].
  exact (inv_linked _ _ Hinv).
Qed.

Lemma repo_invariant_witness :
  creates_fresh_epics scenario_ops /\
  (let '(st, ids) := run scenario_ops empty_state [] in
   last_item_id st = max_list ids /\
   StronglySorted N.lt ids /\ NoDup ids /\
   (forall k e i, epics st !! k = Some e -> i ∈ epic_stories e ->
                  is_Some (stories st !! i))).
Proof.
  assert (Hf : creates_fresh_epics scenario_ops) by (repeat constructor).
  split; [exact Hf|]. exact (proj1 repo_invariant scenario_ops Hf).
Defined.

(** C3, counterexample: [create_epic] stores the epic it is given, so an
    epic built with a story list of its own breaks the invariant that
    every listed id is a story key. *)
Lemma repo_invariant_counterexample :
  epics (run [OpCreateEpic (mkEpic "" "" Open [5])] empty_state []).1 !! 1 =
    Some (mkEpic "" "" Open [5]) /\
  stories (run [OpCreateEpic (mkEpic "" "" Open [5])] empty_state []).1 !! 5 = None.
Proof. split; vm_compute; reflexivity. Qed.

(* ------------------------------------------------------------------ *)
(** ** JSON round trip *)

Lemma parse_escape_char (c : ascii) (t : string) :
  parse_str_body (escape_char c +:+ t) =
  match parse_str_body t with
  | Some (body, rest) => Some (String c body, rest)
  | None => None
  end.
Proof.
  destruct c as [[] [] [] [] [] [] [] []]; cbn; reflexivity.
Qed.

Lemma sapp_cons (c : ascii) (a b : string) : String c a +:+ b = String c (a +:+ b).
Proof. reflexivity. Qed.

Lemma sapp_nil_l (a : string) : EmptyString +:+ a = a.
Proof. reflexivity. Qed.

Lemma sapp_assoc (a b c : string) : (a +:+ b) +:+ c = a +:+ (b +:+ c).
Proof. induction a; rewrite ?sapp_cons; [reflexivity|]. rewrite IHa. reflexivity. Qed.

Lemma sapp_nil_r (a : string) : a +:+ EmptyString = a.
Proof. induction a; rewrite ?sapp_cons; [reflexivity|]. rewrite IHa. reflexivity. Qed.

Lemma sapp_length (a b : string) : String.length (a +:+ b) = (String.length a + String.length b)%nat.
Proof. induction a; rewrite ?sapp_cons; simpl; [reflexivity|]. rewrite IHa. reflexivity. Qed.

Lemma parse_escape (s rest : string) :
  parse_str_body (escape s +:+ str1 dq +:+ rest) = Some (s, rest).
Proof.
  induction s as [|c s IH]; [reflexivity|].
  simpl. rewrite sapp_assoc, parse_escape_char, IH. reflexivity.
Qed.

Lemma code_chr (n : N) : n < 256 -> code (chr n) = n.
Proof. intros H. unfold code, chr. apply Ascii.N_ascii_embedding. exact H. Qed.

Lemma read_digits_dec (f : nat) (n : N) (rest : string) (a : N) :
  (0 < f)%nat -> n < 10 ^ N.of_nat f ->
  read_digits (dec f n +:+ rest) a =
  read_digits rest (a * 10 ^ N.of_nat (String.length (dec f n)) + n).
Proof.
  revert n rest a. induction f as [|f IH]; intros n rest a Hf Hn; [lia|].
  simpl dec. destruct (N.ltb_spec n 10) as [Hlt|Hge].
  - unfold str1. rewrite sapp_cons, sapp_nil_l. simpl. unfold is_digit. rewrite code_chr by lia.
    replace ((48 <=? 48 + n) && (48 + n <=? 57)) with true
      by (symmetry; apply andb_true_iff; split; apply N.leb_le; lia).
    f_equal. replace (48 + n - 48) with n by lia. lia.
  - assert (Hf' : (0 < f)%nat).
    { destruct f; [|lia]. simpl in Hn. lia. }
    assert (Hq : n / 10 < 10 ^ N.of_nat f).
    { apply N.Div0.div_lt_upper_bound. rewrite Nat2N.inj_succ, N.pow_succ_r' in Hn. lia. }
    rewrite sapp_assoc, IH by assumption. unfold str1. rewrite sapp_cons, sapp_nil_l. simpl.
    unfold is_digit.
    assert (Hm : n mod 10 < 10) by (apply N.mod_lt; lia).
    rewrite code_chr by lia.
    assert (Hd : ((48 <=? 48 + n mod 10) && (48 + n mod 10 <=? 57)) = true).
    { apply andb_true_iff. split; apply N.leb_le; clear -Hm; lia. }
    rewrite Hd.
    f_equal. rewrite sapp_length. simpl String.length.
    rewrite Nat.add_1_r, Nat2N.inj_succ, N.pow_succ_r'.
    replace (48 + n mod 10 - 48) with (n mod 10) by lia.
    pose proof (N.div_mod n 10 ltac:(lia)). nia.
Qed.

Lemma read_digits_stop (rest : string) (a : N) :
  starts_with is_digit rest = false -> read_digits rest a = (a, rest).
Proof. destruct rest as [|c r]; simpl; [reflexivity|]. intros H. rewrite H. reflexivity. Qed.

Lemma dec_first (f : nat) (n : N) :
  (0 < f)%nat -> n < 10 ^ N.of_nat f ->
  exists c t, dec f n = String c t /\ is_digit c = true /\ (code c = 48 <-> n = 0).
Proof.
  revert n. induction f as [|f IH]; intros n Hf Hn; [lia|].
  simpl dec. destruct (N.ltb_spec n 10) as [Hlt|Hge].
  - exists (chr (48 + n)), EmptyString. unfold str1. split; [reflexivity|].
    unfold is_digit. rewrite code_chr by lia. split; [|lia].
    apply andb_true_iff. split; apply N.leb_le; lia.
  - assert (Hf' : (0 < f)%nat).
    { destruct f; [|lia]. simpl in Hn. lia. }
    assert (Hq : n / 10 < 10 ^ N.of_nat f).
    { apply N.Div0.div_lt_upper_bound. rewrite Nat2N.inj_succ, N.pow_succ_r' in Hn. lia. }
    destruct (IH (n / 10) Hf' Hq) as (c & t & Hd & Hdig & Hz).
    exists c, (t +:+ str1 (chr (48 + n mod 10))). rewrite Hd. split; [reflexivity|].
    split; [exact Hdig|]. rewrite Hz. lia.
Qed.



Lemma parse_uint_dec (f : nat) (n : N) (rest : string) :
  (0 < f)%nat -> n < 10 ^ N.of_nat f -> starts_with is_digit rest = false ->
  parse_uint (dec f n +:+ rest) = Some (n, rest).
Proof.
  intros Hf Hn Hr.
  pose proof (read_digits_dec f n rest 0 Hf Hn) as Hrd.
  rewrite (read_digits_stop rest) in Hrd by exact Hr.
  destruct (dec_first f n Hf Hn) as (c & t & Hd & Hdig & Hz).
  rewrite Hd in Hrd |- *. rewrite sapp_cons in Hrd |- *. simpl.
  destruct (N.eqb_spec (code c) 48) as [H48|H48].
  - assert (n = 0) as -> by (apply Hz; exact H48).
    destruct f as [|f']; [lia|]. simpl in Hd. injection Hd as Hc Ht. subst t.
    rewrite sapp_nil_l, Hr. reflexivity.
  - rewrite Hdig. f_equal. simpl in Hrd. rewrite Hdig in Hrd. replace (0 * 10 + (code c - 48)) with (code c - 48) in Hrd by lia. rewrite Hrd. f_equal; lia.
Qed.

Lemma parse_number_print (z : Z) (rest : string) :
  (Z.abs z < 10 ^ 20)%Z -> delim_ok rest = true ->
  parse_number (print_Z z +:+ rest) = Some (z, rest).
Proof.
  intros Hz Hr. unfold delim_ok in Hr.
  assert (Hd : starts_with is_digit rest = false).
  { destruct rest as [|c r]; [reflexivity|]. simpl in *. destruct (is_digit c); simpl in *; congruence. }
  assert (He : starts_with is_frac_or_exp rest = false).
  { destruct rest as [|c r]; [reflexivity|]. simpl in *. destruct (is_frac_or_exp c), (is_digit c); simpl in *; congruence. }
  assert (Hb : forall m : N, Z.of_N m = Z.abs z -> m < 10 ^ N.of_nat 20).
  { intros m Hm. apply N2Z.inj_lt. rewrite Hm, N2Z.inj_pow. simpl. lia. }
  unfold print_Z, print_N. destruct (Z.ltb_spec z 0) as [Hneg|Hpos].
  - rewrite sapp_assoc.
    assert (Hm : Z.of_N (Z.to_N (- z)) = Z.abs z) by (rewrite Z2N.id; lia).
    pose proof (parse_uint_dec 20 (Z.to_N (- z)) rest ltac:(lia) (Hb _ Hm) Hd) as Hu.
    remember (dec 20 (Z.to_N (- z)) +:+ rest) as r eqn:Er.
    change ("-" +:+ r) with (String "-"%char r). unfold parse_number.
    change (code "-"%char =? 45) with true. cbv iota beta. rewrite Hu, He.
    f_equal. f_equal. rewrite Z2N.id; lia.
  - assert (Hm : Z.of_N (Z.to_N z) = Z.abs z) by (rewrite Z2N.id; lia).
    destruct (dec_first 20 (Z.to_N z) ltac:(lia) (Hb _ Hm)) as (c & t & Hdc & Hdig & _).
    pose proof (parse_uint_dec 20 (Z.to_N z) rest ltac:(lia) (Hb _ Hm) Hd) as Hu.
    rewrite Hdc, sapp_cons in Hu |- *.
    assert (Hc : (code c =? 45) = false).
    { apply N.eqb_neq. unfold is_digit in Hdig. apply andb_true_iff in Hdig as [H1 H2].
      apply N.leb_le in H1. lia. }
    unfold parse_number. rewrite Hc. rewrite Hu, He. f_equal. f_equal. rewrite Z2N.id; lia.
Qed.

Ltac norm_app := rewrite ?sapp_assoc, ?sapp_cons, ?sapp_nil_l.

Lemma strip_prefix_app (w rest : string) : strip_prefix w (w +:+ rest) = Some rest.
Proof.
  induction w as [|a w IH]; [reflexivity|]. rewrite sapp_cons. simpl.
  rewrite Ascii.eqb_refl. exact IH.
Qed.

Lemma skip_ws_nonws (c : ascii) (t : string) : is_ws c = false -> skip_ws (String c t) = String c t.
Proof. intros H. simpl. rewrite H. reflexivity. Qed.

Lemma dec_first_digit (f : nat) (n : N) :
  (0 < f)%nat -> exists c t, dec f n = String c t /\ is_digit c = true.
Proof.
  revert n. induction f as [|f IH]; intros n Hf; [lia|].
  simpl dec. destruct (N.ltb_spec n 10) as [Hlt|Hge].
  - exists (chr (48 + n)), EmptyString. split; [reflexivity|].
    unfold is_digit. rewrite code_chr by lia.
    apply andb_true_iff. split; apply N.leb_le; lia.
  - destruct f as [|f].
    + exists (chr (48 + n mod 10)), EmptyString. split; [reflexivity|].
      unfold is_digit. rewrite code_chr by lia.
      apply andb_true_iff. split; apply N.leb_le; lia.
    + destruct (IH (n / 10) ltac:(lia)) as (c & t & Hd & Hdig).
      exists c, (t +:+ str1 (chr (48 + n mod 10))). rewrite Hd. split; [reflexivity|exact Hdig].
Qed.

Lemma print_Z_first (z : Z) :
  exists c t, print_Z z = String c t /\ (code c = 45 \/ (48 <= code c <= 57)).
Proof.
  unfold print_Z, print_N. destruct (z <? 0)%Z.
  - eexists _, _. split; [reflexivity|]. left. reflexivity.
  - destruct (dec_first_digit 20 (Z.to_N z) ltac:(lia)) as (c & t & Hd & Hdig).
    exists c, t. split; [exact Hd|]. right. unfold is_digit in Hdig.
    apply andb_true_iff in Hdig as [H1 H2]. apply N.leb_le in H1, H2. lia.
Qed.

Lemma is_ws_code (c : ascii) : code c = 45 \/ (48 <= code c <= 57) \/ code c = 34 \/
  code c = 91 \/ code c = 123 \/ code c = 110 \/ code c = 116 \/ code c = 102 -> is_ws c = false.
Proof.
  intros H. unfold is_ws.
  repeat match goal with |- context [?a =? ?b] => destruct (N.eqb_spec a b) end; simpl; lia.
Qed.

Lemma print_first (v : json) :
  exists c t, print_json v = String c t /\ is_ws c = false /\ code c <> 93 /\ code c <> 125.
Proof.
  destruct v as [| [] | z | s | l | ms].
  1-3,5-7: eexists _, _; split; [reflexivity|]; split; [reflexivity|]; split; discriminate.
  destruct (print_Z_first z) as (c & t & Hp & Hc). exists c, t. simpl. split; [exact Hp|].
  split; [apply is_ws_code; lia|]. lia.
Qed.

Lemma parse_value_num (f : nat) (c : ascii) (r : string) :
  code c = 45 \/ (48 <= code c <= 57) ->
  parse_value (S f) (String c r) =
  match parse_number (String c r) with Some (z, r') => Some (JNum z, r') | None => None end.
Proof.
  intros Hc. cbn [parse_value]. rewrite skip_ws_nonws by (apply is_ws_code; lia).
  repeat match goal with |- context [code c =? ?b] =>
    let E := fresh in assert (E : (code c =? b) = false) by (apply N.eqb_neq; lia); rewrite E end.
  reflexivity.
Qed.

Lemma parse_value_arr (f : nat) (r : string) (c : ascii) (w : string) :
  r = String c w -> is_ws c = false -> code c <> 93 ->
  parse_value (S f) (String "["%char r) =
  match parse_elems f r with Some (l, r'') => Some (JArr l, r'') | None => None end.
Proof.
  intros -> Hw H93. cbn [parse_value]. simpl skip_ws at 1.
  change (code "["%char =? 110) with false. change (code "["%char =? 116) with false.
  change (code "["%char =? 102) with false. change (code "["%char =? 34) with false.
  change (code "["%char =? 91) with true. cbv iota.
  rewrite skip_ws_nonws by exact Hw.
  destruct (N.eqb_spec (code c) 93) as [E|E]; [contradiction|]. reflexivity.
Qed.

Lemma parse_value_obj (f : nat) (r : string) (c : ascii) (w : string) :
  r = String c w -> is_ws c = false -> code c <> 125 ->
  parse_value (S f) (String "{"%char r) =
  match parse_members f r with Some (l, r'') => Some (JObj l, r'') | None => None end.
Proof.
  intros -> Hw H125. cbn [parse_value]. simpl skip_ws at 1.
  change (code "{"%char =? 110) with false. change (code "{"%char =? 116) with false.
  change (code "{"%char =? 102) with false. change (code "{"%char =? 34) with false.
  change (code "{"%char =? 91) with false. change (code "{"%char =? 123) with true. cbv iota.
  rewrite skip_ws_nonws by exact Hw.
  destruct (N.eqb_spec (code c) 125) as [E|E]; [contradiction|]. reflexivity.
Qed.



Lemma print_json_arr (l : list json) :
  print_json (JArr l) = "[" +:+ sep_by "," (map print_json l) +:+ "]".
Proof. reflexivity. Qed.

Lemma print_json_obj (ms : list (string * json)) :
  print_json (JObj ms) = "{" +:+ sep_by "," (map print_member ms) +:+ "}".
Proof. reflexivity. Qed.

Lemma delim_ok_cons (c : ascii) (t : string) :
  code c = 44 \/ code c = 93 \/ code c = 125 -> delim_ok (String c t) = true.
Proof.
  intros H. unfold delim_ok, is_digit, is_frac_or_exp. simpl.
  repeat match goal with |- context [?a =? ?b] => destruct (N.eqb_spec a b) end;
  repeat match goal with |- context [?a <=? ?b] => destruct (N.leb_spec a b) end; simpl; lia.
Qed.

Lemma quote_app (s rest : string) :
  quote s +:+ rest = String dq (escape s +:+ str1 dq +:+ rest).
Proof. unfold quote. rewrite !sapp_assoc. reflexivity. Qed.



Lemma json_roundtrip_fuel (f : nat) :
  (forall v rest, json_okb v = true -> (jsize v <= f)%nat -> delim_ok rest = true ->
     parse_value f (print_json v +:+ rest) = Some (v, rest)) /\
  (forall l rest, l <> [] -> forallb json_okb l = true ->
     (list_sum (map (fun x => S (jsize x)) l) <= f)%nat ->
     parse_elems f (sep_by "," (map print_json l) +:+ "]" +:+ rest) = Some (l, rest)) /\
  (forall ms rest, ms <> [] -> forallb (fun kv => json_okb kv.2) ms = true ->
     (list_sum (map (fun kv => S (jsize kv.2)) ms) <= f)%nat ->
     parse_members f (sep_by "," (map print_member ms) +:+ "}" +:+ rest) = Some (ms, rest)).
Proof.
  induction f as [|f (IHv & IHl & IHm)].
  { split; [|split].
    - intros v rest _ Hs. destruct v; simpl in Hs; lia.
    - intros [|x l] rest Hne _ Hs; [congruence|]. simpl in Hs. lia.
    - intros [|x l] rest Hne _ Hs; [congruence|]. simpl in Hs. lia. }
  split; [|split].
  - intros v rest Hok Hs Hr. destruct v as [| [] | z | s | l | ms].
    + simpl print_json. norm_app. simpl. reflexivity.
    + simpl print_json. norm_app. simpl. reflexivity.
    + simpl print_json. norm_app. simpl. reflexivity.
    + simpl in Hok. apply Z.ltb_lt in Hok.
      destruct (print_Z_first z) as (c & t & Hp & Hc). simpl print_json.
      rewrite Hp, sapp_cons, parse_value_num by exact Hc.
      rewrite <- sapp_cons, <- Hp, parse_number_print by assumption. reflexivity.
    + simpl print_json. rewrite quote_app. simpl. rewrite parse_escape. reflexivity.
    + destruct l as [|v l].
      * simpl. norm_app. reflexivity.
      * rewrite print_json_arr. rewrite !sapp_assoc, (sapp_cons "["%char), sapp_nil_l.
        destruct (print_first v) as (c & t & Hp & Hw & H93 & _).
        assert (Hr' : sep_by "," (map print_json (v :: l)) +:+ "]" +:+ rest =
                      String c (t +:+ match l with
                                      | [] => "]" +:+ rest
                                      | _ => "," +:+ sep_by "," (map print_json l) +:+ "]" +:+ rest
                                      end)).
        { destruct l; simpl map; simpl sep_by; rewrite Hp; norm_app; reflexivity. }
        rewrite (parse_value_arr f _ c _ Hr' Hw H93).
        simpl in Hok, Hs. rewrite IHl by (congruence || assumption || lia || (simpl in *; lia)). reflexivity.
    + destruct ms as [|[k v] ms].
      * simpl. norm_app. reflexivity.
      * rewrite print_json_obj. rewrite !sapp_assoc, (sapp_cons "{"%char), sapp_nil_l.
        assert (Hr' : sep_by "," (map print_member ((k, v) :: ms)) +:+ "}" +:+ rest =
                      String dq ((escape k +:+ str1 dq +:+ ":" +:+ print_json v) +:+
                        match ms with
                        | [] => "}" +:+ rest
                        | _ => "," +:+ sep_by "," (map print_member ms) +:+ "}" +:+ rest
                        end)).
        { destruct ms; simpl map; simpl sep_by; unfold print_member, quote, str1; norm_app; reflexivity. }
        rewrite (parse_value_obj f _ dq _ Hr' eq_refl ltac:(discriminate)).
        simpl in Hok, Hs. rewrite IHm by (congruence || assumption || lia || (simpl in *; lia)). reflexivity.
  - intros [|v l] rest Hne Hok Hs; [congruence|].
    simpl in Hok. apply andb_true_iff in Hok as [Hv Hl]. simpl in Hs.
    destruct l as [|v2 l].
    + simpl map. simpl sep_by. norm_app. cbn [parse_elems].
      rewrite IHv by (assumption || lia || (norm_app; apply delim_ok_cons; right; left; reflexivity)).
      simpl. reflexivity.
    + assert (E : sep_by "," (map print_json (v :: v2 :: l)) +:+ "]" +:+ rest =
        print_json v +:+ String ","%char (sep_by "," (map print_json (v2 :: l)) +:+ "]" +:+ rest)).
      { change (sep_by "," (map print_json (v :: v2 :: l)))
          with (print_json v +:+ "," +:+ sep_by "," (map print_json (v2 :: l))).
        rewrite !sapp_assoc. reflexivity. }
      rewrite E. clear E.
      remember (sep_by "," (map print_json (v2 :: l)) +:+ "]" +:+ rest) as T eqn:ET.
      cbn [parse_elems].
      rewrite IHv by (assumption || lia || (apply delim_ok_cons; left; reflexivity)).
      simpl skip_ws. change (code ","%char =? 44) with true. cbv iota.
      rewrite ET, IHl by (congruence || assumption || lia || (simpl in *; lia)). reflexivity.
  - intros [|[k v] ms] rest Hne Hok Hs; [congruence|].
    simpl in Hok. apply andb_true_iff in Hok as [Hv Hm]. simpl in Hs.
    destruct ms as [|kv2 ms].
    + assert (E : sep_by "," (map print_member [(k, v)]) +:+ "}" +:+ rest =
        String dq (escape k +:+ str1 dq +:+ String ":"%char (print_json v +:+ String "}"%char rest))).
      { change (sep_by "," (map print_member [(k, v)])) with (quote k +:+ ":" +:+ print_json v).
        rewrite !sapp_assoc, quote_app. rewrite ?sapp_assoc. reflexivity. }
      rewrite E. clear E. cbn [parse_members]. simpl skip_ws.
      change (code dq =? 34) with true. cbv iota. rewrite parse_escape.
      simpl skip_ws. change (code ":"%char =? 58) with true. cbv iota.
      rewrite IHv by (assumption || lia || (apply delim_ok_cons; right; right; reflexivity)).
      reflexivity.
    + assert (E : sep_by "," (map print_member ((k, v) :: kv2 :: ms)) +:+ "}" +:+ rest =
        String dq (escape k +:+ str1 dq +:+ String ":"%char (print_json v +:+
          String ","%char (sep_by "," (map print_member (kv2 :: ms)) +:+ "}" +:+ rest)))).
      { change (sep_by "," (map print_member ((k, v) :: kv2 :: ms)))
          with ((quote k +:+ ":" +:+ print_json v) +:+ "," +:+ sep_by "," (map print_member (kv2 :: ms))).
        rewrite !sapp_assoc, quote_app. rewrite ?sapp_assoc. reflexivity. }
      rewrite E. clear E.
      remember (sep_by "," (map print_member (kv2 :: ms)) +:+ "}" +:+ rest) as T eqn:ET.
      cbn [parse_members]. simpl skip_ws.
      change (code dq =? 34) with true. cbv iota. rewrite parse_escape.
      simpl skip_ws. change (code ":"%char =? 58) with true. cbv iota.
      rewrite IHv by (assumption || lia || (apply delim_ok_cons; left; reflexivity)).
      simpl skip_ws. change (code ","%char =? 44) with true. cbv iota.
      rewrite ET, IHm by (congruence || assumption || lia || (simpl in *; lia)). reflexivity.
Qed.



Lemma sep_by_len (l : list string) :
  (list_sum (map (fun s => S (String.length s)) l) <= S (String.length (sep_by "," l)))%nat.
Proof.
  induction l as [|x [|y l] IH]; [simpl; lia|simpl; lia|].
  change (sep_by "," (x :: y :: l)) with (x +:+ "," +:+ sep_by "," (y :: l)).
  rewrite !sapp_length. simpl in *. lia.
Qed.

Lemma jsize_le_length (v : json) : (jsize v <= String.length (print_json v))%nat.
Proof.
  induction v as [| [] | z | s | l IH | ms IH] using json_ind'.
  1-3: simpl; lia.
  - destruct (print_Z_first z) as (c & t & Hp & _). simpl. rewrite Hp. simpl. lia.
  - simpl. unfold quote. rewrite !sapp_length. simpl. lia.
  - rewrite print_json_arr, !sapp_length. simpl jsize. simpl String.length.
    pose proof (sep_by_len (map print_json l)) as Hs.
    assert (list_sum (map (fun x => S (jsize x)) l) <=
            list_sum (map (fun s => S (String.length s)) (map print_json l)))%nat.
    { clear Hs. induction IH as [|x l Hx _ IHl]; simpl; lia. }
    lia.
  - rewrite print_json_obj, !sapp_length. simpl jsize. simpl String.length.
    pose proof (sep_by_len (map print_member ms)) as Hs.
    assert (list_sum (map (fun kv => S (jsize kv.2)) ms) <=
            list_sum (map (fun s => S (String.length s)) (map print_member ms)))%nat.
    { clear Hs. induction IH as [|[k x] ms Hx _ IHm]; simpl; [lia|].
      unfold quote. rewrite !sapp_length. simpl in *. lia. }
    lia.
Qed.

Lemma json_from_str_print (v : json) :
  json_okb v = true -> json_from_str (print_json v) = Some v.
Proof.
  intros Hok. unfold json_from_str.
  pose proof (jsize_le_length v) as Hl.
  destruct (json_roundtrip_fuel (S (String.length (print_json v)))) as [Hv _].
  specialize (Hv v EmptyString Hok ltac:(lia) eq_refl). rewrite sapp_nil_r in Hv.
  rewrite Hv. reflexivity.
Qed.

(* ------------------------------------------------------------------ *)
(** ** [DbState] through JSON *)

Lemma u32_of_to_json (n : N) : n <= u32_max -> u32_of_json (u32_to_json n) = Some n.
Proof.
  intros Hn. unfold u32_of_json, u32_to_json.
  destruct (Z.leb_spec 0 (Z.of_N n)) as [_|]; [|lia].
  destruct (Z.leb_spec (Z.of_N n) (Z.of_N u32_max)) as [_|]; [|lia].
  simpl. rewrite N2Z.id. reflexivity.
Qed.

Lemma status_of_to_json (s : Status) : status_of_json (status_to_json s) = Some s.
Proof. destruct s; reflexivity. Qed.

Lemma mapM_map_Some {A C D} (h : D -> option A) (g : C -> D) (to : C -> A) (l : list C) :
  Forall (fun x => h (g x) = Some (to x)) l -> mapM h (map g l) = Some (map to l).
Proof.
  induction 1 as [|x l Hx _ IH]; [reflexivity|]. simpl. rewrite Hx, IH. reflexivity.
Qed.

Lemma vec_of_to_json (l : list N) :
  Forall (fun i => i <= u32_max) l -> mapM u32_of_json (map u32_to_json l) = Some l.
Proof.
  intros Hl. rewrite <- (map_id l) at 2. apply mapM_map_Some.
  eapply Forall_impl; [exact Hl|]. intros x Hx. apply u32_of_to_json, Hx.
Qed.

Lemma epic_of_to_json (e : Epic) :
  Forall (fun i => i <= u32_max) (epic_stories e) -> epic_of_json (epic_to_json e) = Some e.
Proof.
  intros Hl. destruct e as [n d s l]. unfold epic_of_json, epic_to_json. simpl.
  replace (status_of_name (status_name s)) with (Some s) by (destruct s; reflexivity).
  simpl. rewrite (vec_of_to_json l Hl). reflexivity.
Qed.

Lemma story_of_to_json (s : Story) : story_of_json (story_to_json s) = Some s.
Proof.
  destruct s as [n d st]. unfold story_of_json, story_to_json. simpl.
  destruct st; reflexivity.
Qed.

Lemma key_of_print_N (k : N) : k <= u32_max -> key_of_string (print_N k) = Some k.
Proof.
  intros Hk. unfold key_of_string.
  assert (Hp : print_N k = print_Z (Z.of_N k) +:+ EmptyString).
  { rewrite sapp_nil_r. unfold print_Z. destruct (Z.ltb_spec (Z.of_N k) 0); [lia|].
    rewrite N2Z.id. reflexivity. }
  rewrite Hp, parse_number_print by (unfold u32_max in Hk; lia || reflexivity).
  apply u32_of_to_json, Hk.
Qed.

Lemma fold_left_insert_list_to_map {A} (l : list (N * A)) (m0 : gmap N A) :
  NoDup l.*1 -> fold_left (fun m kv => <[kv.1 := kv.2]> m) l m0 = list_to_map l ∪ m0.
Proof.
  revert m0. induction l as [|[k a] l IH]; intros m0 Hnd; simpl.
  - rewrite map_empty_union. reflexivity.
  - apply NoDup_cons in Hnd as [Hk Hnd]. rewrite IH by exact Hnd.
    rewrite <- insert_union_l, <- insert_union_r; [reflexivity|].
    apply not_elem_of_list_to_map_1. exact Hk.
Qed.

Lemma map_of_to_json {A} (f : json -> option A) (enc : A -> json) (m : gmap N A) :
  (forall k a, m !! k = Some a -> k <= u32_max /\ f (enc a) = Some a) ->
  map_of_json f (map_to_json enc m) = Some m.
Proof.
  intros Hm. unfold map_of_json, map_to_json.
  cbv beta iota. rewrite (mapM_map_Some _ _ id).
  - simpl. rewrite map_id, fold_left_insert_list_to_map by apply NoDup_fst_map_to_list.
    rewrite map_union_empty, list_to_map_to_list. reflexivity.
  - apply Forall_forall. intros [k a] Hka. apply elem_of_map_to_list in Hka.
    destruct (Hm k a Hka) as [Hk Ha]. simpl. rewrite key_of_print_N by exact Hk.
    simpl. rewrite Ha. reflexivity.
Qed.

Lemma db_of_to_json (st : DbState) : valid_state st -> db_of_json (db_to_json st) = Some st.
Proof.
  intros (Hl & He & Hs). destruct st as [l e s]. simpl in *.
  assert (Hu : u32_of_json (u32_to_json l) = Some l) by (apply u32_of_to_json, Hl).
  assert (Hme : map_of_json epic_of_json (map_to_json epic_to_json e) = Some e).
  { apply map_of_to_json. intros k a Hk. destruct (He k a Hk) as [Hk' [Ha _]].
    split; [exact Hk'|]. apply epic_of_to_json, Ha. }
  assert (Hms : map_of_json story_of_json (map_to_json story_to_json s) = Some s).
  { apply map_of_to_json. intros k a Hk. split; [exact (proj1 (Hs k a Hk))|]. apply story_of_to_json. }
  unfold db_of_json, db_to_json. cbn [last_item_id epics stories].
  remember (u32_to_json l) as jl eqn:Ejl.
  remember (map_to_json epic_to_json e) as je eqn:Eje.
  remember (map_to_json story_to_json s) as js eqn:Ejs.
  simpl. rewrite Hu, Hme, Hms. reflexivity.
Qed.

Lemma u32_json_okb (n : N) : n <= u32_max -> json_okb (u32_to_json n) = true.
Proof. intros Hn. unfold u32_max in Hn. simpl. apply Z.ltb_lt. lia. Qed.

Lemma map_json_okb {A} (enc : A -> json) (m : gmap N A) :
  (forall k a, m !! k = Some a -> json_okb (enc a) = true) ->
  json_okb (map_to_json enc m) = true.
Proof.
  intros Hm. unfold map_to_json. simpl. apply forallb_forall.
  intros [k' x] Hin. apply in_map_iff in Hin as ([k a] & Heq & Hin).
  injection Heq as <- <-. apply list_elem_of_In, elem_of_map_to_list in Hin.
  exact (Hm k a Hin).
Qed.

Lemma db_json_okb (st : DbState) : valid_state st -> json_okb (db_to_json st) = true.
Proof.
  intros (Hl & He & Hs). unfold db_to_json. cbn [json_okb forallb snd].
  rewrite u32_json_okb by exact Hl.
  rewrite map_json_okb; [rewrite map_json_okb; [reflexivity|]|].
  - intros k a _. destruct a. reflexivity.
  - intros k a Hk. destruct (He k a Hk) as [_ [Ha _]]. destruct a as [n d s l]. simpl in *.
    rewrite andb_true_r. apply forallb_forall. intros x Hx. apply in_map_iff in Hx as (i & <- & Hi).
    apply u32_json_okb. rewrite Forall_forall in Ha. apply Ha, list_elem_of_In, Hi.
Qed.

Lemma utf8_valid_ascii_app (a b : list N) :
  Forall (fun y => y < 128) a -> utf8_valid (a ++ b) = utf8_valid b.
Proof.
  induction 1 as [|x a Hx _ IH]; [reflexivity|].
  cbn [app utf8_valid]. apply N.ltb_lt in Hx. rewrite Hx. exact IH.
Qed.

Lemma utf8_cont_ge (c : N) : utf8_cont c = true -> 128 <= c.
Proof. unfold utf8_cont. intros H. apply andb_prop in H as [H _]. apply N.leb_le, H. Qed.

Lemma utf8_lead3_ge (b c : N) :
  (if b =? 224 then (160 <=? c) && (c <=? 191)
   else if b =? 237 then (128 <=? c) && (c <=? 159) else utf8_cont c) = true -> 128 <= c.
Proof.
  intros H. destruct (b =? 224); [|destruct (b =? 237)]; [..|apply utf8_cont_ge, H];
    apply andb_prop in H as [H _]; apply N.leb_le in H; lia.
Qed.

Lemma utf8_lead4_ge (b c : N) :
  (if b =? 240 then (144 <=? c) && (c <=? 191)
   else if b =? 244 then (128 <=? c) && (c <=? 143) else utf8_cont c) = true -> 128 <= c.
Proof.
  intros H. destruct (b =? 240); [|destruct (b =? 244)]; [..|apply utf8_cont_ge, H];
    apply andb_prop in H as [H _]; apply N.leb_le in H; lia.
Qed.

Lemma utf8_valid_app (a b : list N) :
  utf8_valid a = true -> utf8_valid b = true -> utf8_valid (a ++ b) = true.
Proof.
  intros Ha Hb. induction a as [a IH] using (induction_ltof1 _ (@length N)).
  unfold ltof in IH. destruct a as [|x r]; [exact Hb|].
  cbn [app utf8_valid] in Ha |- *.
  destruct (x <? 128); [apply IH; [simpl; lia|exact Ha]|].
  destruct ((194 <=? x) && (x <=? 223)).
  { destruct r as [|c1 r]; [discriminate|]. apply andb_prop in Ha as [H1 Hr].
    cbn [app]. rewrite H1. apply IH; [simpl; lia|exact Hr]. }
  destruct ((224 <=? x) && (x <=? 239)).
  { destruct r as [|c1 [|c2 r]]; try discriminate.
    apply andb_prop in Ha as [H1 Hr]. cbn [app]. rewrite H1. apply IH; [simpl; lia|exact Hr]. }
  destruct ((240 <=? x) && (x <=? 244)); [|discriminate].
  destruct r as [|c1 [|c2 [|c3 r]]]; try discriminate.
  apply andb_prop in Ha as [H1 Hr]. cbn [app]. rewrite H1. apply IH; [simpl; lia|exact Hr].
Qed.

(** A valid byte string stays valid when each ASCII byte is replaced by
    ASCII bytes and every other byte is kept. *)
Lemma utf8_valid_expand (h : N -> list N) (l : list N) :
  Forall (fun x => (128 <= x -> h x = [x]) /\ (x < 128 -> Forall (fun y => y < 128) (h x))) l ->
  utf8_valid l = true -> utf8_valid (concat (map h l)) = true.
Proof.
  induction l as [l IH] using (induction_ltof1 _ (@length N)). unfold ltof in IH.
  intros Hh Hv. destruct l as [|x r]; [reflexivity|].
  inversion Hh as [|? ? [Hhi Hlo] Hr]; subst.
  cbn [map concat]. destruct (x <? 128) eqn:Hx.
  { cbn [utf8_valid] in Hv. rewrite Hx in Hv.
    rewrite utf8_valid_ascii_app by (apply Hlo, N.ltb_lt, Hx).
    apply IH; [simpl; lia|exact Hr|exact Hv]. }
  rewrite Hhi by (apply N.ltb_ge, Hx). cbn [app utf8_valid] in Hv |- *. rewrite Hx in Hv |- *.
  destruct ((194 <=? x) && (x <=? 223)).
  { destruct r as [|c1 r]; [discriminate|]. apply andb_prop in Hv as [H1 Hv].
    inversion Hr as [|? ? [Hh1 _] Hr1]; subst.
    cbn [map concat]. rewrite Hh1 by (apply utf8_cont_ge, H1). cbn [app].
    rewrite H1. apply IH; [simpl; lia|exact Hr1|exact Hv]. }
  destruct ((224 <=? x) && (x <=? 239)).
  { destruct r as [|c1 [|c2 r]]; try discriminate.
    apply andb_prop in Hv as [H12 Hv]. pose proof H12 as H12'.
    apply andb_prop in H12' as [H1 H2].
    inversion Hr as [|? ? [Hh1 _] Hr1]; subst. inversion Hr1 as [|? ? [Hh2 _] Hr2]; subst.
    cbn [map concat]. rewrite Hh1 by (eapply utf8_lead3_ge, H1).
    rewrite Hh2 by (apply utf8_cont_ge, H2). cbn [app].
    rewrite H12. apply IH; [simpl; lia|exact Hr2|exact Hv]. }
  destruct ((240 <=? x) && (x <=? 244)); [|discriminate].
  destruct r as [|c1 [|c2 [|c3 r]]]; try discriminate.
  apply andb_prop in Hv as [H123 Hv]. pose proof H123 as H'.
  apply andb_prop in H' as [H' H3]. apply andb_prop in H' as [H1 H2].
  inversion Hr as [|? ? [Hh1 _] Hr1]; subst. inversion Hr1 as [|? ? [Hh2 _] Hr2]; subst.
  inversion Hr2 as [|? ? [Hh3 _] Hr3]; subst.
  cbn [map concat]. rewrite Hh1 by (eapply utf8_lead4_ge, H1).
  rewrite Hh2 by (apply utf8_cont_ge, H2). rewrite Hh3 by (apply utf8_cont_ge, H3). cbn [app].
  rewrite H123. apply IH; [simpl; lia|exact Hr3|exact Hv].
Qed.

Lemma bytes_of_app (a b : string) : bytes_of (a +:+ b) = bytes_of a ++ bytes_of b.
Proof. induction a as [|c a IH]; [reflexivity|]. rewrite sapp_cons. unfold bytes_of in *. simpl. rewrite IH. reflexivity. Qed.

Lemma code_lt_256 (c : ascii) : code c < 256.
Proof. unfold code. exact (Ascii.N_ascii_bounded c). Qed.

Lemma escape_char_bytes (c : ascii) :
  (if code c <? 128 then forallb (fun y => y <? 128) (bytes_of (escape_char c))
   else String.eqb (escape_char c) (str1 c)) = true.
Proof. destruct c as [[] [] [] [] [] [] [] []]; vm_compute; reflexivity. Qed.

Lemma escape_utf8 (s : string) :
  utf8_valid (bytes_of s) = true -> utf8_valid (bytes_of (escape s)) = true.
Proof.
  intros Hv.
  assert (He : bytes_of (escape s) = concat (map (fun b => bytes_of (escape_char (chr b))) (bytes_of s))).
  { clear Hv. induction s as [|c s IH]; [reflexivity|]. simpl escape. rewrite bytes_of_app, IH.
    unfold bytes_of; simpl. unfold chr, code; rewrite Ascii.ascii_N_embedding. reflexivity. }
  rewrite He. apply utf8_valid_expand; [|exact Hv].
  apply Forall_forall. intros x Hx. unfold bytes_of in Hx. apply list_elem_of_In, in_map_iff in Hx as (c & <- & _).
  assert (Hcc : chr (code c) = c) by apply Ascii.ascii_N_embedding.
  cbv beta. rewrite Hcc. pose proof (escape_char_bytes c) as Hc.
  split; intros Hlt.
  - apply N.ltb_ge in Hlt. rewrite Hlt in Hc. apply String.eqb_eq in Hc. rewrite Hc. reflexivity.
  - apply N.ltb_lt in Hlt. rewrite Hlt in Hc. apply Forall_forall. intros y Hy.
    rewrite forallb_forall in Hc. apply N.ltb_lt, Hc, list_elem_of_In, Hy.
Qed.

Lemma ascii_utf8 (s : string) : forallb (fun y => y <? 128) (bytes_of s) = true -> utf8_valid (bytes_of s) = true.
Proof.
  intros H. rewrite <- (app_nil_r (bytes_of s)). rewrite utf8_valid_ascii_app; [reflexivity|].
  apply Forall_forall. intros y Hy. rewrite forallb_forall in H. apply N.ltb_lt, H, list_elem_of_In, Hy.
Qed.

Lemma dec_utf8 (f : nat) (n : N) : utf8_valid (bytes_of (dec f n)) = true.
Proof.
  revert n. induction f as [|f IH]; intros n; [reflexivity|]. simpl dec.
  assert (Hd : forall d, d < 10 -> utf8_valid (bytes_of (str1 (chr (48 + d)))) = true).
  { intros d Hd. unfold bytes_of, str1. simpl. fold (code (chr (48 + d))).
    rewrite code_chr by lia. replace (48 + d <? 128) with true by (symmetry; apply N.ltb_lt; lia).
    reflexivity. }
  destruct (n <? 10) eqn:Hn; [apply Hd, N.ltb_lt, Hn|].
  rewrite bytes_of_app. apply utf8_valid_app; [apply IH|apply Hd, N.mod_lt; lia].
Qed.

Lemma print_Z_utf8 (z : Z) : utf8_valid (bytes_of (print_Z z)) = true.
Proof.
  unfold print_Z, print_N. destruct (z <? 0)%Z; [|apply dec_utf8].
  rewrite bytes_of_app. apply utf8_valid_app; [reflexivity|apply dec_utf8].
Qed.

Lemma quote_utf8 (s : string) : utf8_valid (bytes_of s) = true -> utf8_valid (bytes_of (quote s)) = true.
Proof.
  intros Hs. unfold quote. rewrite !bytes_of_app.
  apply utf8_valid_app; [reflexivity|apply utf8_valid_app; [apply escape_utf8, Hs|reflexivity]].
Qed.

Lemma sep_by_utf8 (sep : string) (l : list string) :
  utf8_valid (bytes_of sep) = true -> Forall (fun x => utf8_valid (bytes_of x) = true) l ->
  utf8_valid (bytes_of (sep_by sep l)) = true.
Proof.
  intros Hs. induction 1 as [|x l Hx Hl IH]; [reflexivity|].
  destruct l as [|y l]; [exact Hx|].
  change (sep_by sep (x :: y :: l)) with (x +:+ sep +:+ sep_by sep (y :: l)).
  rewrite !bytes_of_app. apply utf8_valid_app; [exact Hx|apply utf8_valid_app; assumption].
Qed.

Lemma print_json_utf8 (v : json) : json_utf8b v = true -> utf8_valid (bytes_of (print_json v)) = true.
Proof.
  induction v as [| [] | z | s | l IH | ms IH] using json_ind'; intros Hv.
  1-3: reflexivity.
  - apply print_Z_utf8.
  - apply quote_utf8, Hv.
  - rewrite print_json_arr, !bytes_of_app. apply utf8_valid_app; [reflexivity|].
    apply utf8_valid_app; [|reflexivity]. apply sep_by_utf8; [reflexivity|].
    simpl in Hv. rewrite forallb_forall in Hv. apply Forall_forall. intros x Hx.
    apply list_elem_of_In, in_map_iff in Hx as (w & <- & Hw). rewrite Forall_forall in IH.
    apply IH; [apply list_elem_of_In, Hw|apply Hv, Hw].
  - rewrite print_json_obj, !bytes_of_app. apply utf8_valid_app; [reflexivity|].
    apply utf8_valid_app; [|reflexivity]. apply sep_by_utf8; [reflexivity|].
    simpl in Hv. rewrite forallb_forall in Hv. apply Forall_forall. intros x Hx.
    apply list_elem_of_In, in_map_iff in Hx as ([k w] & <- & Hw). rewrite Forall_forall in IH.
    pose proof (Hv _ Hw) as Hkw. apply andb_prop in Hkw as [Hk Hw'].
    unfold print_member; cbv beta iota. rewrite !bytes_of_app. apply utf8_valid_app; [apply quote_utf8, Hk|].
    apply utf8_valid_app; [reflexivity|]. apply (IH (k, w)); [apply list_elem_of_In, Hw|exact Hw'].
Qed.

Lemma map_json_utf8b {A} (enc : A -> json) (m : gmap N A) :
  (forall k a, m !! k = Some a -> json_utf8b (enc a) = true) ->
  json_utf8b (map_to_json enc m) = true.
Proof.
  intros Hm. unfold map_to_json. simpl. apply forallb_forall.
  intros [k' x] Hin. apply in_map_iff in Hin as ([k a] & Heq & Hin).
  injection Heq as <- <-. apply list_elem_of_In, elem_of_map_to_list in Hin.
  simpl. rewrite (Hm k a Hin), andb_true_r. unfold print_N. apply dec_utf8.
Qed.

Lemma db_print_utf8 (st : DbState) :
  valid_state st -> utf8_valid (bytes_of (print_json (db_to_json st))) = true.
Proof.
  intros (Hl & He & Hs). apply print_json_utf8. unfold db_to_json. cbn [json_utf8b forallb fst snd].
  rewrite map_json_utf8b; [rewrite map_json_utf8b; [reflexivity|]|].
  - intros k a Hk. destruct (Hs k a Hk) as (_ & Hn & Hd). destruct a as [n d st']. simpl in *.
    rewrite Hn, Hd. destruct st'; reflexivity.
  - intros k a Hk. destruct (He k a Hk) as (_ & _ & Hn & Hd). destruct a as [n d st' l]. simpl in *.
    rewrite Hn, Hd. simpl. rewrite andb_true_r. destruct st'; simpl; apply forallb_forall;
      intros x Hx; apply in_map_iff in Hx as (i & <- & _); reflexivity.
Qed.

(** C6: a valid [DbState] written through a storage backend and read back
    is the same value: for the JSON-file backend (when the file can be
    written: [write] stores the [serde_json] text of the state and [read]
    parses it back) and for the in-memory backend, from any prior
    backend state. *)
Theorem write_read_roundtrip :
  (forall (fs : FileSys) (st : DbState),
     valid_state st -> file_writable fs = true ->
     (db_write st ;;; db_read) fs =
       (Ok st, mkFileSys (Some (print_json (db_to_json st))) true)) /\
  (forall (b st : DbState), (db_write st ;;; db_read) b = (Ok st, st)).
Proof.
  split.
  - intros fs st Hv Hw. unfold bind.
    cbn -[json_from_str db_of_json print_json db_to_json utf8_valid bytes_of]. rewrite Hw.
    cbn -[json_from_str db_of_json print_json db_to_json utf8_valid bytes_of].
    rewrite db_print_utf8 by exact Hv.
    rewrite json_from_str_print by (apply db_json_okb, Hv).
    cbn -[json_from_str db_of_json print_json db_to_json].
    rewrite db_of_to_json by exact Hv. reflexivity.
  - intros b st. reflexivity.
Qed.

Lemma write_read_roundtrip_witness :
  valid_state st_epic_story /\
  (db_write st_epic_story ;;; db_read) (mkFileSys None true) =
    (Ok st_epic_story, mkFileSys (Some (print_json (db_to_json st_epic_story))) true).
Proof.
  assert (Hv : valid_state st_epic_story)
    by (apply valid_stateb_sound; vm_compute; reflexivity).
  split; [exact Hv|].
  apply (proj1 write_read_roundtrip); [exact Hv|reflexivity].
Defined.

(* ------------------------------------------------------------------ *)
(** ** Errors of the repository *)

(** C7: the repository's [read] does not return a backend failure to
    its caller: on a missing database file [JsonFileDb::read] fails with
    an I/O error, and [JiraDatabase::read] turns it into the panic
    "Read JIRA error" ([.expect]); [create_epic] also aborts the process
    (the [u32] overflow panic) when [last_item_id] is [u32::MAX]. *)
Theorem jira_read_panics_on_missing_file :
  db_read (mkFileSys None true) = (Err IoError, mkFileSys None true) /\
  jira_read (mkFileSys None true) = (Panic "Read JIRA error", mkFileSys None true) /\
  fst (create_epic (Epic_new "e" "") (mkDbState u32_max ∅ ∅)) = Panic overflow_msg.
Proof. split; [reflexivity|split; reflexivity]. Qed.

(* ------------------------------------------------------------------ *)
(** ** Table cells *)

Lemma text_str_length_ascii (t : list string) :
  Forall (fun g => String.length g = 1%nat) t -> String.length (text_str t) = length t.
Proof.
  induction 1 as [|g t Hg _ IH]; [reflexivity|]. simpl. rewrite sapp_length, Hg, IH. reflexivity.
Qed.

Lemma spaces_length (n : nat) : String.length (spaces n) = n.
Proof. induction n; simpl; auto. Qed.

(** C8: a text longer in bytes than the column but with few graphemes is
    returned unchanged: ["éééé"] (four graphemes, eight bytes) in a column
    of width 7 gives ["éééé"] itself, of neither 7 bytes nor 7 characters,
    not its first four characters followed by ["..."]: [text.len()] counts
    bytes while [truncate_ellipse] counts graphemes. *)
Theorem get_column_string_multibyte :
  get_column_string (repeat e_acute 4) 7 = text_str (repeat e_acute 4) /\
  String.length (text_str (repeat e_acute 4)) = 8%nat /\
  length (repeat e_acute 4) = 4%nat.
Proof. split; [|split]; reflexivity. Qed.

(** For a text of one-byte graphemes (ASCII), [get_column_string] returns
    a string of exactly [width] bytes. *)
Lemma get_column_string_ascii_length (t : list string) (width : nat) :
  Forall (fun g => String.length g = 1%nat) t ->
  String.length (get_column_string t width) = width.
Proof.
  intros Ht. unfold get_column_string. rewrite (text_str_length_ascii t Ht).
  destruct (Nat.compare_spec (length t) width) as [E|L|G].
  - rewrite text_str_length_ascii; auto.
  - rewrite sapp_length, spaces_length, text_str_length_ascii by exact Ht. lia.
  - destruct width as [|[|[|[|w]]]]; try reflexivity.
    unfold truncate_ellipse. replace (S (S (S (S w))) - 3)%nat with (S w) by lia.
    destruct (Nat.leb_spec (length t) (S w)) as [|_]; [lia|]. simpl Nat.eqb. cbv iota.
    rewrite sapp_length, text_str_length_ascii.
    + rewrite length_take. change (String.length "...") with 3%nat. lia.
    + apply Forall_take, Ht.
Qed.

Lemma get_column_string_ascii_length_witness :
  Forall (fun g => String.length g = 1%nat) (ascii_graphemes "testmetest") /\
  String.length (get_column_string (ascii_graphemes "testmetest") 6) = 6%nat.
Proof.
  assert (H : Forall (fun g => String.length g = 1%nat) (ascii_graphemes "testmetest"))
    by (vm_compute; repeat constructor).
  split; [exact H|]. exact (get_column_string_ascii_length _ 6 H).
Defined.

(* ------------------------------------------------------------------ *)
(** ** Prompts *)

Lemma is_prefix_app (w l : list N) : is_prefix w (w ++ l) = true.
Proof. induction w; simpl; [reflexivity|]. rewrite N.eqb_refl. exact IHw. Qed.

Lemma is_prefix_spec (w l : list N) : is_prefix w l = true -> l = w ++ drop (length w) l.
Proof.
  revert l. induction w as [|a w IH]; intros [|b l] H; simpl in *; try congruence.
  apply andb_true_iff in H as [Hab H]. apply N.eqb_eq in Hab as ->. f_equal. apply IH, H.
Qed.

Lemma is_prefix_both (w1 w2 l : list N) :
  is_prefix w1 l = true -> is_prefix w2 l = true ->
  is_prefix w1 w2 = true \/ is_prefix w2 w1 = true.
Proof.
  revert w2 l. induction w1 as [|a w1 IH]; intros [|b w2] [|c l] H1 H2; simpl in *; auto; try congruence.
  apply andb_true_iff in H1 as [Ha H1], H2 as [Hb H2]. apply N.eqb_eq in Ha, Hb. subst.
  rewrite N.eqb_refl. simpl. exact (IH w2 l H1 H2).
Qed.

Lemma prefix_free_eq (codes : list (list N)) (w1 w2 l : list N) :
  prefix_free codes = true -> w1 ∈ codes -> w2 ∈ codes ->
  is_prefix w1 l = true -> is_prefix w2 l = true -> w1 = w2.
Proof.
  intros Hpf H1 H2 Hl1 Hl2. unfold prefix_free in Hpf. rewrite forallb_forall in Hpf.
  assert (G : forall a b, a ∈ codes -> b ∈ codes -> is_prefix a b = true -> a = b).
  { intros a b Ha Hb Hab. apply list_elem_of_In in Ha, Hb.
    specialize (Hpf a Ha). rewrite forallb_forall in Hpf. specialize (Hpf b Hb).
    rewrite Hab in Hpf. simpl in Hpf. apply bool_decide_eq_true in Hpf. exact Hpf. }
  destruct (is_prefix_both w1 w2 l Hl1 Hl2) as [H|H]; [apply G|symmetry; apply G]; assumption.
Qed.

Lemma strip_codes_split (codes : list (list N)) (fuel : nat) (l : list N) :
  exists p, Forall (fun w => w ∈ codes) p /\ l = concat p ++ strip_codes codes fuel l.
Proof.
  revert l. induction fuel as [|f IH]; intros l; simpl.
  - exists []. split; [constructor|reflexivity].
  - destruct (List.find (fun w => is_prefix w l) codes) as [w|] eqn:Hf.
    + apply List.find_some in Hf as [Hin Hw].
      destruct (IH (drop (length w) l)) as (p & Hp & Hl).
      exists (w :: p). split; [constructor; [apply list_elem_of_In, Hin|exact Hp]|].
      simpl. rewrite <- app_assoc, <- Hl. apply is_prefix_spec, Hw.
    + exists []. split; [constructor|reflexivity].
Qed.

Lemma strip_codes_concat (codes : list (list N)) (fuel : nat) (p : list (list N)) (rest : list N) :
  prefix_free codes = true -> Forall (fun w => w ∈ codes) p ->
  List.find (fun w => is_prefix w rest) codes = None -> (length p <= fuel)%nat ->
  strip_codes codes fuel (concat p ++ rest) = rest.
Proof.
  intros Hpf Hp Hr. revert fuel. induction Hp as [|w p Hw Hp IH]; intros fuel Hfuel.
  - destruct fuel; simpl; [reflexivity|]. rewrite Hr. reflexivity.
  - destruct fuel as [|f]; simpl in Hfuel; [lia|]. simpl.
    destruct (List.find (fun w0 => is_prefix w0 ((w ++ concat p) ++ rest)) codes) as [w'|] eqn:Hf.
    + apply List.find_some in Hf as [Hin Hw'].
      assert (w' = w) as ->.
      { apply (prefix_free_eq codes w' w ((w ++ concat p) ++ rest) Hpf);
          [apply list_elem_of_In, Hin|exact Hw|exact Hw'|].
        rewrite <- app_assoc. apply is_prefix_app. }
      rewrite <- app_assoc, drop_app_length. apply IH. lia.
    + exfalso. eapply List.find_none in Hf; [|apply list_elem_of_In, Hw].
      rewrite <- app_assoc, is_prefix_app in Hf. discriminate.
Qed.

Lemma concat_length_ge (p : list (list N)) (codes : list (list N)) :
  Forall (fun w => w <> []) codes -> Forall (fun w => w ∈ codes) p ->
  (length p <= length (concat p))%nat.
Proof.
  intros Hne Hp. induction Hp as [|w p Hw _ IH]; simpl; [lia|].
  rewrite Forall_forall in Hne. specialize (Hne w Hw).
  rewrite length_app. destruct w; [congruence|]. simpl. lia.
Qed.

Lemma rev_concat (p : list (list N)) : rev (concat p) = concat (rev (map (@rev N) p)).
Proof.
  induction p as [|w p IH]; [reflexivity|]. simpl. rewrite rev_app_distr, IH.
  rewrite concat_app. simpl. rewrite app_nil_r. reflexivity.
Qed.

Lemma white_space_props :
  prefix_free white_space = true /\ prefix_free (map (@rev N) white_space) = true /\
  Forall (fun w => w <> []) white_space /\ Forall (fun w => w <> []) (map (@rev N) white_space).
Proof. split; [vm_compute; reflexivity|split; [vm_compute; reflexivity|split; repeat constructor; discriminate]]. Qed.

Lemma rev_ws_iff (w : list N) : w ∈ map (@rev N) white_space <-> rev w ∈ white_space.
Proof.
  split.
  - intros Hw. apply list_elem_of_fmap in Hw as (x & -> & Hx). rewrite rev_involutive. exact Hx.
  - intros Hw. apply list_elem_of_fmap. exists (rev w). rewrite rev_involutive. split; [reflexivity|exact Hw].
Qed.

Lemma no_ws_Y (codes : list (list N)) (t : list N) :
  Forall (fun w => w <> [] /\ head w <> Some 89) codes ->
  List.find (fun w => is_prefix w (89 :: t)) codes = None.
Proof.
  induction 1 as [|w codes [Hne Hh] _ IH]; [reflexivity|]. simpl. rewrite IH.
  destruct w as [|a w]; [congruence|]. simpl in Hh |- *.
  destruct (N.eqb_spec a 89); [subst; congruence|reflexivity].
Qed.

Lemma trim_Y (l : list N) :
  trim l = [89] <->
  exists p q, Forall (fun w => w ∈ white_space) p /\ Forall (fun w => w ∈ white_space) q /\
              l = concat p ++ 89 :: concat q.
Proof.
  destruct white_space_props as (Hpf & Hpfr & Hne & Hner).
  split.
  - intros H. unfold trim, trim_end, trim_start in H.
    destruct (strip_codes_split white_space (length l) l) as (p & Hp & Hl).
    set (l1 := strip_codes white_space (length l) l) in *.
    destruct (strip_codes_split (map (@rev N) white_space) (length l1) (rev l1)) as (p' & Hp' & Hl1).
    assert (E : strip_codes (map (@rev N) white_space) (length l1) (rev l1) = [89]).
    { rewrite <- (rev_involutive (strip_codes _ _ _)), H. reflexivity. }
    rewrite E in Hl1.
    exists p, (rev (map (@rev N) p')). split; [exact Hp|]. split.
    + apply Forall_rev, Forall_map. eapply Forall_impl; [exact Hp'|].
      intros w Hw. apply rev_ws_iff, Hw.
    + rewrite Hl. f_equal. rewrite <- (rev_involutive l1), Hl1, rev_app_distr, rev_concat.
      reflexivity.
  - intros (p & q & Hp & Hq & ->). unfold trim, trim_start, trim_end.
    rewrite strip_codes_concat; try assumption.
    2:{ apply no_ws_Y. vm_compute. repeat constructor; discriminate. }
    2:{ rewrite length_app. pose proof (concat_length_ge p _ Hne Hp). lia. }
    set (q' := rev (map (@rev N) q)).
    assert (Hq' : Forall (fun w => w ∈ map (@rev N) white_space) q').
    { apply Forall_rev, Forall_map. eapply Forall_impl; [exact Hq|].
      intros w Hw. apply rev_ws_iff. rewrite rev_involutive. exact Hw. }
    assert (Er : rev (89 :: concat q) = concat q' ++ [89]).
    { simpl. f_equal. rewrite rev_concat. reflexivity. }
    rewrite Er, strip_codes_concat; try assumption; [reflexivity| |].
    + apply no_ws_Y. vm_compute. repeat constructor; discriminate.
    + pose proof (concat_length_ge q' _ Hner Hq') as Hlen.
      assert (Hc : concat q' = rev (concat q)) by (unfold q'; rewrite rev_concat; reflexivity).
      rewrite Hc, length_rev in Hlen. simpl. lia.
Qed.

Lemma u32_digits_zeros (m : nat) (l : list N) :
  u32_digits (replicate m 48 ++ l) 0 = u32_digits l 0.
Proof. induction m; [reflexivity|]. simpl. exact IHm. Qed.

Lemma u32_digits_small (l : list N) (acc k : N) :
  u32_digits l acc = Some k -> k < 10 ->
  (acc = 0 /\ exists m, l = replicate m 48 ++ [48 + k]) \/ (l = [] /\ acc = k).
Proof.
  revert acc. induction l as [|b l IH]; intros acc H Hk; simpl in H.
  - injection H as <-. right. auto.
  - destruct ((48 <=? b) && (b <=? 57)) eqn:Hd; [|discriminate].
    apply andb_true_iff in Hd as [H1 H2]. apply N.leb_le in H1, H2.
    destruct (acc * 10 + (b - 48) <=? u32_max); [|discriminate].
    left. destruct (IH _ H Hk) as [(Ha & m & ->)|(-> & Ha)].
    + split; [lia|]. exists (S m). simpl. do 2 f_equal. lia.
    + split; [lia|]. exists O. simpl. f_equal. lia.
Qed.

Lemma update_status_prompt_spec (s : string) (st : Status) :
  update_status_prompt s = Some st <->
  exists (sign : list N) (m : nat), (sign = [] \/ sign = [43]) /\
    bytes_of s = sign ++ replicate m 48 ++ [48 + status_number st].
Proof.
  unfold update_status_prompt, parse_u32. split.
  - intros H.
    assert (Hk : exists k, (match bytes_of s with
                | [] => None
                | b :: rest =>
                    if (b =? 43) || (b =? 45)
                    then match rest with
                         | [] => None
                         | _ :: _ => if b =? 43 then u32_digits rest 0 else u32_digits (b :: rest) 0
                         end
                    else u32_digits (b :: rest) 0
                end) = Some k /\ k = status_number st).
    { destruct (match bytes_of s with | [] => None | _ => _ end) as [k|]; [|discriminate].
      exists k. split; [reflexivity|].
      destruct k as [|p]; [discriminate|].
      repeat (destruct p as [p|p|]; try discriminate); injection H as <-; reflexivity. }
    destruct Hk as (k & Hk & ->).
    assert (Hs : status_number st < 10) by (destruct st; simpl; lia).
    destruct (bytes_of s) as [|b rest]; [discriminate|].
    destruct (N.eqb_spec b 43) as [->|Hb43].
    + destruct rest as [|c rest]; [discriminate|].
      change (u32_digits (c :: rest) 0 = Some (status_number st)) in Hk.
      destruct (u32_digits_small _ _ _ Hk Hs) as [(_ & m & Hm)|(Hm & _)]; [|discriminate].
      exists [43], m. split; [auto|]. rewrite Hm. reflexivity.
    + destruct (N.eqb_spec b 45) as [->|Hb45].
      * destruct rest; simpl in Hk; discriminate.
      * apply N.eqb_neq in Hb43, Hb45. try rewrite Hb43 in Hk. try rewrite Hb45 in Hk.
        change (u32_digits (b :: rest) 0 = Some (status_number st)) in Hk.
        destruct (u32_digits_small _ _ _ Hk Hs) as [(_ & m & Hm)|(Hm & _)]; [|discriminate].
        exists [], m. split; [auto|]. rewrite Hm. reflexivity.
  - intros (sign & m & Hsign & Hb). rewrite Hb.
    assert (Hd : u32_digits (replicate m 48 ++ [48 + status_number st]) 0 = Some (status_number st)).
    { rewrite u32_digits_zeros. destruct st; reflexivity. }
    destruct Hsign as [-> | ->].
    + simpl app. destruct m as [|m].
      * destruct st; reflexivity.
      * simpl. rewrite u32_digits_zeros. destruct st; reflexivity.
    + simpl app. cbn -[u32_digits]. destruct m as [|m].
      * destruct st; reflexivity.
      * rewrite Hd. destruct st; reflexivity.
Qed.

Lemma bytes_of_inj (s t : string) : bytes_of s = bytes_of t -> s = t.
Proof.
  revert t. induction s as [|c s IH]; intros [|d t] H; try discriminate; [reflexivity|].
  unfold bytes_of in H. simpl in H. injection H as Hcd Hst.
  f_equal; [|apply IH, Hst].
  rewrite <- (Ascii.ascii_N_embedding c), <- (Ascii.ascii_N_embedding d). f_equal. exact Hcd.
Qed.

(** C9: on every input without leading or trailing whitespace, the
    delete prompts answer yes exactly on ["Y"], and the status prompt
    returns [Some st] exactly when the input is an optional ['+'], any
    number of ['0'], then the digit numbering [st] (1 Open, 2 InProgress,
    3 Resolved, 4 Closed), so ["+1"] and ["01"] give [Open]; it returns
    [None] on every other such input. *)
Theorem prompts_spec (s : string) :
  trim (bytes_of s) = bytes_of s ->
  (delete_epic_prompt s = true <-> s = "Y") /\
  (delete_story_prompt s = true <-> s = "Y") /\
  (forall st : Status,
     update_status_prompt s = Some st <->
     exists (sign : list N) (m : nat), (sign = [] \/ sign = [43]) /\
       bytes_of s = sign ++ replicate m 48 ++ [48 + status_number st]).
Proof.
  intros Ht.
  assert (HY : bool_decide (trim (bytes_of s) = [89]) = true <-> s = "Y").
  { rewrite bool_decide_eq_true, Ht. split; [|intros ->; reflexivity].
    intros H. apply bytes_of_inj. exact H. }
  split; [exact HY|split; [exact HY|]].
  intros st. apply update_status_prompt_spec.
Qed.

Lemma prompts_spec_witness :
  trim (bytes_of "1") = bytes_of "1" /\ (update_status_prompt "1" = Some Open <->
    exists (sign : list N) (m : nat), (sign = [] \/ sign = [43]) /\
      bytes_of "1" = sign ++ replicate m 48 ++ [48 + status_number Open]).
Proof.
  assert (Ht : trim (bytes_of "1") = bytes_of "1") by (vm_compute; reflexivity).
  split; [exact Ht|]. exact (proj2 (proj2 (prompts_spec "1" Ht)) Open).
Defined.

(** C9, inputs refuting the claim, whichever line [get_input] returns:
    if it returns the line without its ending, ["+1"] and ["01"] (which
    have no surrounding whitespace) select [Open], not only ["1"]; if it
    keeps the line ending, the status prompt gives [None] on ["1\n"],
    while the delete prompts trim it and answer yes on ["Y\n"]. *)
Lemma prompts_counterexample :
  update_status_prompt "+1" = Some Open /\ update_status_prompt "01" = Some Open /\
  trim (bytes_of "+1") = bytes_of "+1" /\ trim (bytes_of "01") = bytes_of "01" /\
  update_status_prompt ("1" +:+ str1 (chr 10)) = None /\
  delete_epic_prompt ("Y" +:+ str1 (chr 10)) = true.
Proof. vm_compute. repeat split. Qed.

(* ------------------------------------------------------------------ *)
(** ** Repository calls on any backend, state validity and round trips *)

(** Helper lemmas. *)
Lemma exec_op_read_err {B} `{Database B} (op : Op) (b b1 : B) (e : Error) :
  db_read b = (Err e, b1) -> exec_op op b = (Err e, b1).
Proof.
  intros Hr. destruct op; cbv [exec_op create_epic create_story delete_epic delete_story
    update_epic_status update_story_status bind]; rewrite Hr; reflexivity.
Qed.

Lemma exec_op_read_panic {B} `{Database B} (op : Op) (b b1 : B) (m : string) :
  db_read b = (Panic m, b1) -> exec_op op b = (Panic m, b1).
Proof.
  intros Hr. destruct op; cbv [exec_op create_epic create_story delete_epic delete_story
    update_epic_status update_story_status bind]; rewrite Hr; reflexivity.
Qed.

Lemma exec_op_backend {B} `{Database B} (op : Op) (b b1 : B) (st : DbState) :
  db_read b = (Ok st, b1) ->
  exec_op op b =
    match exec_op (B:=DbState) op st with
    | (Ok r, st') => (db_write st' ;;; ret r) b1
    | (Err e, _) => (Err e, b1)
    | (Panic m, _) => (Panic m, b1)
    end.
Proof.
  intros Hr. destruct op; cbv [exec_op create_epic create_story delete_epic delete_story
    update_epic_status update_story_status bind ret fail panic ok_or u32_add]; rewrite Hr;
    cbn; repeat case_match; congruence.
Qed.

Lemma mock_exec_op_fail (op : Op) (st st' : DbState) (res : Outcome (option N)) :
  exec_op op st = (res, st') -> (forall r, res <> Ok r) -> st' = st.
Proof.
  intros He Hn. pose proof (exec_op_backend (B:=DbState) op st st st eq_refl) as Hb.
  rewrite He in Hb. destruct res as [r|e|m]; [exfalso; exact (Hn r eq_refl)| |];
    injection Hb; auto.
Qed.

Lemma file_read_db_file (st : DbState) :
  valid_state st -> db_read (db_file st) = (Ok st, db_file st).
Proof.
  intros Hv. unfold db_file. cbn -[json_from_str db_of_json print_json db_to_json utf8_valid bytes_of].
  rewrite db_print_utf8 by exact Hv.
  rewrite json_from_str_print by (apply db_json_okb, Hv).
  cbn -[json_from_str db_of_json print_json db_to_json].
  rewrite db_of_to_json by exact Hv. reflexivity.
Qed.

Lemma bind_ret_apply {B A C} (m : M B A) (f : A -> C) (b : B) :
  (x <-- m ;; ret (f x)) b =
  match m b with
  | (Ok a, b') => (Ok (f a), b')
  | (Err e, b') => (Err e, b')
  | (Panic s, b') => (Panic s, b')
  end.
Proof. unfold bind, ret. destruct (m b) as [[] ?]; reflexivity. Qed.


Lemma valid_st_epic_story : valid_state st_epic_story.
Proof. apply valid_stateb_sound. vm_compute. reflexivity. Qed.

(** Every repository call, on every backend, reads the state once, computes
    on it as the in-memory backend does, and writes the resulting state
    once, only if that computation succeeds; a failed precondition or a
    panic returns without any write. *)
Theorem repository_call_reads_then_writes_once {B} `{Database B} (op : Op) (b b1 : B) (st : DbState) :
  db_read b = (Ok st, b1) ->
  exec_op op b =
    match exec_op (B:=DbState) op st with
    | (Ok r, st') => (db_write st' ;;; ret r) b1
    | (Err e, _) => (Err e, b1)
    | (Panic m, _) => (Panic m, b1)
    end.
Proof. apply exec_op_backend. Qed.

Lemma repository_call_reads_then_writes_once_witness :
  db_read (db_file st_epic_story) = (Ok st_epic_story, db_file st_epic_story) /\
  exec_op (OpDeleteStory 1 2) (db_file st_epic_story) =
    match exec_op (B:=DbState) (OpDeleteStory 1 2) st_epic_story with
    | (Ok r, st') => (db_write st' ;;; ret r) (db_file st_epic_story)
    | (Err e, _) => (Err e, db_file st_epic_story)
    | (Panic m, _) => (Panic m, db_file st_epic_story)
    end.
Proof.
  assert (Hr : db_read (db_file st_epic_story) = (Ok st_epic_story, db_file st_epic_story))
    by (vm_compute; reflexivity).
  split; [exact Hr|]. exact (repository_call_reads_then_writes_once _ _ _ _ Hr).
Defined.

(** A failed [read] is returned by every repository call unchanged and
    nothing is written (the [?] after [self.database.read()]); on the
    JSON-file backend a missing file, and a file that is not UTF-8, give
    the I/O error of [fs::read_to_string], and the file is left as it is. *)
Theorem read_failure_propagates :
  (forall (B : Type) (db : Database B) (op : Op) (b b1 : B) (e : Error),
     @db_read B db b = (Err e, b1) -> @exec_op B db op b = (Err e, b1)) /\
  (forall (op : Op) (fs : FileSys),
     file_content fs = None -> exec_op op fs = (Err IoError, fs)) /\
  (forall (op : Op) (s : string) (w : bool),
     utf8_valid (bytes_of s) = false ->
     exec_op op (mkFileSys (Some s) w) = (Err IoError, mkFileSys (Some s) w)).
Proof.
  split; [|split].
  - intros B db op b b1 e. apply exec_op_read_err.
  - intros op fs Hn. apply exec_op_read_err. cbn. rewrite Hn. reflexivity.
  - intros op s w Hn. apply exec_op_read_err. cbn -[utf8_valid bytes_of]. rewrite Hn. reflexivity.
Qed.

Lemma read_failure_propagates_witness :
  file_content (mkFileSys None true) = None /\
  exec_op (OpCreateEpic (Epic_new "e" "")) (mkFileSys None true) = (Err IoError, mkFileSys None true).
Proof.
  split; [reflexivity|].
  exact (proj1 (proj2 read_failure_propagates) _ (mkFileSys None true) eq_refl).
Defined.

(** On a database file holding the JSON text of a valid state, every
    repository call returns what it returns on the in-memory backend, and
    the file afterwards holds the JSON text of the in-memory backend's
    final state. *)
Theorem json_file_db_simulates_mock (op : Op) (st : DbState) :
  valid_state st ->
  exec_op op (db_file st) =
    let '(res, st') := exec_op (B:=DbState) op st in (res, db_file st').
Proof.
  intros Hv. rewrite (exec_op_backend op (db_file st) (db_file st) st (file_read_db_file st Hv)).
  destruct (exec_op (B:=DbState) op st) as [res st'] eqn:E.
  destruct res as [r|e|m]; [reflexivity| |];
    (rewrite (mock_exec_op_fail op st st' _ E); [reflexivity|discriminate]).
Qed.

Lemma json_file_db_simulates_mock_witness :
  valid_state st_epic_story /\
  exec_op (OpDeleteStory 1 2) (db_file st_epic_story) =
    let '(res, st') := exec_op (B:=DbState) (OpDeleteStory 1 2) st_epic_story in
    (res, db_file st').
Proof.
  pose proof valid_st_epic_story as Hv.
  split; [exact Hv|]. exact (json_file_db_simulates_mock _ _ Hv).
Defined.

(** On every state, a call that returns an id returns [last_item_id + 1]
    and leaves it as the new [last_item_id]; every other call, failed or
    not, leaves [last_item_id] unchanged. *)
Theorem exec_op_counter (op : Op) (st : DbState) :
  let '(res, st') := exec_op (B:=DbState) op st in
  last_item_id st' = match res with Ok (Some id) => id | _ => last_item_id st end /\
  (forall id, res = Ok (Some id) -> id = last_item_id st + 1).
Proof.
  destruct op as [e|s eid|eid|eid sid|eid stt|sid stt]; unfold exec_op; rewrite bind_ret_apply.
  - rewrite create_epic_mock. destruct (_ <=? _); simpl; split; congruence.
  - rewrite create_story_mock. destruct (_ <=? _); [|simpl; split; congruence].
    destruct (epics st !! eid); simpl; split; congruence.
  - rewrite delete_epic_mock. destruct (epics st !! eid); simpl; split; congruence.
  - rewrite delete_story_mock. destruct (epics st !! eid); [|simpl; split; congruence].
    destruct (position _ _); [|simpl; split; congruence].
    destruct (vec_remove _ _); simpl; split; congruence.
  - rewrite update_epic_status_mock. destruct (epics st !! eid); simpl; split; congruence.
  - rewrite update_story_status_mock. destruct (stories st !! sid); simpl; split; congruence.
Qed.

(** [create_story] followed by [delete_story] of the id it returned gives
    back the epics and the stories as they were; only [last_item_id] has
    advanced. *)
Theorem create_then_delete_story (story : Story) (epic_id : N) (st : DbState) (e : Epic) :
  epics st !! epic_id = Some e -> last_item_id st < u32_max ->
  last_item_id st + 1 ∉ epic_stories e -> stories st !! (last_item_id st + 1) = None ->
  exists st1,
    create_story story epic_id st = (Ok (last_item_id st + 1), st1) /\
    delete_story epic_id (last_item_id st + 1) st1 =
      (Ok tt, mkDbState (last_item_id st + 1) (epics st) (stories st)).
Proof.
  intros He Hlt Hn Hs.
  assert (Hb : (last_item_id st + 1 <=? u32_max) = true) by (apply N.leb_le; lia).
  rewrite create_story_mock, Hb, He. eexists; split; [reflexivity|].
  rewrite delete_story_mock. cbn [epics stories last_item_id]. rewrite lookup_insert_eq.
  cbn [epic_stories set_epic_stories]. rewrite position_first by exact Hn.
  rewrite vec_remove_app, app_nil_r, insert_insert_eq, delete_insert_id by exact Hs.
  replace (set_epic_stories (set_epic_stories e _) (epic_stories e)) with e
    by (destruct e; reflexivity).
  rewrite insert_id by exact He. reflexivity.
Qed.

Lemma create_then_delete_story_witness :
  epics st_one_epic !! 1 = Some (Epic_new "e" "") /\ last_item_id st_one_epic < u32_max /\
  (last_item_id st_one_epic + 1 ∉ epic_stories (Epic_new "e" "")) /\
  stories st_one_epic !! (last_item_id st_one_epic + 1) = None /\
  exists st1,
    create_story (Story_new "s" "") 1 st_one_epic = (Ok 2, st1) /\
    delete_story 1 2 st1 = (Ok tt, mkDbState 2 (epics st_one_epic) (stories st_one_epic)).
Proof.
  assert (H1 : epics st_one_epic !! 1 = Some (Epic_new "e" "")) by (vm_compute; reflexivity).
  assert (H2 : last_item_id st_one_epic < u32_max) by (vm_compute; reflexivity).
  assert (H3 : last_item_id st_one_epic + 1 ∉ epic_stories (Epic_new "e" ""))
    by (vm_compute; intros Hin; inversion Hin).
  assert (H4 : stories st_one_epic !! (last_item_id st_one_epic + 1) = None)
    by (vm_compute; reflexivity).
  split; [exact H1|split; [exact H2|split; [exact H3|split; [exact H4|]]]].
  exact (create_then_delete_story (Story_new "s" "") 1 st_one_epic _ H1 H2 H3 H4).
Defined.

(** [create_epic] of an [Epic::new] followed by [delete_epic] of the id it
    returned gives back the epics and stories as they were; only
    [last_item_id] has advanced. *)
Theorem create_then_delete_epic (name description : string) (st : DbState) :
  last_item_id st < u32_max -> epics st !! (last_item_id st + 1) = None ->
  exists st1,
    create_epic (Epic_new name description) st = (Ok (last_item_id st + 1), st1) /\
    delete_epic (last_item_id st + 1) st1 =
      (Ok tt, mkDbState (last_item_id st + 1) (epics st) (stories st)).
Proof.
  intros Hlt Hn.
  assert (Hb : (last_item_id st + 1 <=? u32_max) = true) by (apply N.leb_le; lia).
  rewrite create_epic_mock, Hb. eexists; split; [reflexivity|].
  rewrite delete_epic_mock. cbn [epics stories last_item_id]. rewrite lookup_insert_eq.
  simpl. rewrite delete_insert_id by exact Hn. reflexivity.
Qed.

Lemma create_then_delete_epic_witness :
  last_item_id st_one_epic < u32_max /\ epics st_one_epic !! (last_item_id st_one_epic + 1) = None /\
  exists st1,
    create_epic (Epic_new "f" "") st_one_epic = (Ok 2, st1) /\
    delete_epic 2 st1 = (Ok tt, mkDbState 2 (epics st_one_epic) (stories st_one_epic)).
Proof.
  assert (H1 : last_item_id st_one_epic < u32_max) by (vm_compute; reflexivity).
  assert (H2 : epics st_one_epic !! (last_item_id st_one_epic + 1) = None) by (vm_compute; reflexivity).
  split; [exact H1|split; [exact H2|]].
  exact (create_then_delete_epic "f" "" st_one_epic H1 H2).
Defined.

(** [update_epic_status] fails with the not-found error on an absent epic,
    state unchanged; otherwise it changes only that epic's status, keeping
    its name, description and story list, every other epic, the stories and
    [last_item_id]. *)
Theorem update_epic_status_spec (epic_id : N) (status : Status) (st : DbState) :
  (epics st !! epic_id = None ->
     update_epic_status epic_id status st = (Err (Anyhow msg_epic_not_found), st)) /\
  (forall e, epics st !! epic_id = Some e ->
     exists st', update_epic_status epic_id status st = (Ok tt, st') /\
       epics st' !! epic_id =
         Some (mkEpic (epic_name e) (epic_description e) status (epic_stories e)) /\
       (forall k, k <> epic_id -> epics st' !! k = epics st !! k) /\
       stories st' = stories st /\ last_item_id st' = last_item_id st).
Proof.
  split.
  - intros Hn. rewrite update_epic_status_mock, Hn. reflexivity.
  - intros e He. rewrite update_epic_status_mock, He. eexists; split; [reflexivity|].
    simpl. split; [apply lookup_insert_eq|]. split; [|split; reflexivity].
    intros k Hk. apply lookup_insert_ne. congruence.
Qed.

Lemma update_epic_status_spec_witness :
  epics st_epic_story !! 1 = Some epic_e2 /\
  exists st', update_epic_status 1 Closed st_epic_story = (Ok tt, st') /\
    epics st' !! 1 = Some (mkEpic "e" "" Closed [2]).
Proof.
  assert (He : epics st_epic_story !! 1 = Some epic_e2) by (vm_compute; reflexivity).
  split; [exact He|].
  destruct (proj2 (update_epic_status_spec 1 Closed st_epic_story) epic_e2 He)
    as (st' & Hu & Hl & _). exists st'. split; [exact Hu|exact Hl].
Defined.

(** [update_story_status] on an absent story fails with the message
    "could not find epic in database!" (the epic's message), state
    unchanged; otherwise it changes only that story's status, keeping its
    name and description, every other story, the epics and [last_item_id]. *)
Theorem update_story_status_spec (story_id : N) (status : Status) (st : DbState) :
  (stories st !! story_id = None ->
     update_story_status story_id status st =
       (Err (Anyhow "could not find epic in database!"), st)) /\
  (forall s, stories st !! story_id = Some s ->
     exists st', update_story_status story_id status st = (Ok tt, st') /\
       stories st' !! story_id = Some (mkStory (story_name s) (story_description s) status) /\
       (forall k, k <> story_id -> stories st' !! k = stories st !! k) /\
       epics st' = epics st /\ last_item_id st' = last_item_id st).
Proof.
  split.
  - intros Hn. rewrite update_story_status_mock, Hn. reflexivity.
  - intros s Hs. rewrite update_story_status_mock, Hs. eexists; split; [reflexivity|].
    simpl. split; [apply lookup_insert_eq|]. split; [|split; reflexivity].
    intros k Hk. apply lookup_insert_ne. congruence.
Qed.

Lemma update_story_status_spec_witness :
  stories st_epic_story !! 3 = None /\
  update_story_status 3 Closed st_epic_story =
    (Err (Anyhow "could not find epic in database!"), st_epic_story).
Proof.
  assert (Hn : stories st_epic_story !! 3 = None) by (vm_compute; reflexivity).
  split; [exact Hn|]. exact (proj1 (update_story_status_spec 3 Closed st_epic_story) Hn).
Defined.

(** For any text: when its byte length is at most [width],
    [get_column_string] returns it followed by [width - len] spaces, exactly
    [width] bytes; when it is longer and [width] is at most 3, the result
    is [width] dots. *)
Theorem get_column_string_fits (t : list string) (width : nat) :
  ((String.length (text_str t) <= width)%nat ->
     get_column_string t width = text_str t +:+ spaces (width - String.length (text_str t)) /\
     String.length (get_column_string t width) = width) /\
  ((width < String.length (text_str t))%nat -> (width <= 3)%nat ->
     get_column_string t width = String.substring 0 width "...").
Proof.
  split.
  - intros Hle. unfold get_column_string.
    destruct (Nat.compare_spec (String.length (text_str t)) width) as [E|L|G]; [| |lia].
    + rewrite E, Nat.sub_diag. simpl. rewrite sapp_nil_r. split; reflexivity.
    + split; [reflexivity|]. rewrite sapp_length, spaces_length. lia.
  - intros Hgt Hw. unfold get_column_string.
    destruct (Nat.compare_spec (String.length (text_str t)) width) as [E|L|G]; [lia|lia|].
    destruct width as [|[|[|[|w]]]]; [reflexivity..|lia].
Qed.

Lemma get_column_string_fits_witness :
  (String.length (text_str (repeat e_acute 2)) <= 6)%nat /\
  get_column_string (repeat e_acute 2) 6 = text_str (repeat e_acute 2) +:+ spaces 2 /\
  (2 < String.length (text_str (ascii_graphemes "test")))%nat /\
  get_column_string (ascii_graphemes "test") 2 = "..".
Proof.
  assert (H1 : (String.length (text_str (repeat e_acute 2)) <= 6)%nat) by (vm_compute; lia).
  assert (H2 : (2 < String.length (text_str (ascii_graphemes "test")))%nat) by (vm_compute; lia).
  split; [exact H1|split; [exact (proj1 (proj1 (get_column_string_fits _ 6) H1))|]].
  split; [exact H2|]. exact (proj2 (get_column_string_fits _ 2) H2 ltac:(lia)).
Defined.

(** An ASCII text longer than a [width] of at least 4 is cut to its first
    [width - 3] characters followed by ["..."]. *)
Theorem get_column_string_ascii_truncates (t : list string) (width : nat) :
  Forall (fun g => String.length g = 1%nat) t -> (4 <= width)%nat -> (width < length t)%nat ->
  get_column_string t width = text_str (take (width - 3) t) +:+ "...".
Proof.
  intros Ht Hw Hlt. unfold get_column_string. rewrite (text_str_length_ascii t Ht).
  destruct (Nat.compare_spec (length t) width) as [E|L|G]; [lia|lia|].
  destruct width as [|[|[|[|w]]]]; try lia.
  unfold truncate_ellipse. replace (S (S (S (S w))) - 3)%nat with (S w) by lia.
  destruct (Nat.leb_spec (length t) (S w)) as [|_]; [lia|]. reflexivity.
Qed.

Lemma get_column_string_ascii_truncates_witness :
  Forall (fun g => String.length g = 1%nat) (ascii_graphemes "testmetest") /\
  get_column_string (ascii_graphemes "testmetest") 7 =
    text_str (take 4 (ascii_graphemes "testmetest")) +:+ "...".
Proof.
  assert (H : Forall (fun g => String.length g = 1%nat) (ascii_graphemes "testmetest"))
    by (vm_compute; repeat constructor).
  split; [exact H|].
  exact (get_column_string_ascii_truncates _ 7 H ltac:(lia) ltac:(vm_compute; lia)).
Defined.

(** The repository invariant (counter equal to the largest allocated id,
    allocated ids increasing, story keys at most the counter, every listed
    id a story key, no id listed twice or by two epics) holds after every
    sequence of calls whose created epics have empty story lists, from any
    state where it holds. *)
Theorem repo_inv_preserved (ops : list Op) (st : DbState) (ids : list N) :
  repo_inv st ids -> creates_fresh_epics ops ->
  let '(st', ids') := run ops st ids in repo_inv st' ids'.
Proof. intros Hi Hf. pose proof (inv_run ops st ids Hi Hf) as H. destruct (run ops st ids). exact H. Qed.

Lemma repo_inv_preserved_witness :
  repo_inv st_epic_story [1; 2] /\
  creates_fresh_epics [OpCreateStory (Story_new "t" "") 1; OpDeleteStory 1 2] /\
  (let '(st', ids') := run [OpCreateStory (Story_new "t" "") 1; OpDeleteStory 1 2]
                          st_epic_story [1; 2] in repo_inv st' ids').
Proof.
  assert (Hi : repo_inv st_epic_story [1; 2]).
  { unfold st_epic_story. constructor; cbn [last_item_id epics stories].
    - vm_compute. reflexivity.
    - repeat constructor.
    - intros k s Hk. apply lookup_singleton_Some in Hk as [<- _]. simpl. lia.
    - intros k e i Hk Hin. apply lookup_singleton_Some in Hk as [<- <-].
      apply list_elem_of_singleton in Hin as ->. eexists. reflexivity.
    - intros k e Hk. apply lookup_singleton_Some in Hk as [<- <-]. repeat constructor.
      intros Hin. inversion Hin.
    - intros k1 k2 e1 e2 i H1 H2 _ _.
      apply lookup_singleton_Some in H1 as [<- _]. apply lookup_singleton_Some in H2 as [<- _].
      reflexivity. }
  assert (Hf : creates_fresh_epics [OpCreateStory (Story_new "t" "") 1; OpDeleteStory 1 2])
    by repeat constructor.
  split; [exact Hi|split; [exact Hf|]]. exact (repo_inv_preserved _ _ _ Hi Hf).
Defined.

(** The delete prompts answer yes exactly when the answer is ["Y"]
    between any amount of leading and trailing Unicode whitespace
    ([str::trim]), so [" Y"], ["Y "] and ["Y\n"] confirm a deletion,
    whatever [get_input] leaves in the line. *)
Theorem delete_prompts_trim (s : string) :
  (delete_epic_prompt s = true <->
   exists p q, Forall (fun w => w ∈ white_space) p /\ Forall (fun w => w ∈ white_space) q /\
               bytes_of s = concat p ++ 89 :: concat q) /\
  delete_story_prompt s = delete_epic_prompt s.
Proof.
  split; [|reflexivity].
  unfold delete_epic_prompt. rewrite bool_decide_eq_true. apply trim_Y.
Qed.
